(** * gtfsrtk: delay extraction, merging, schedule join and interpolation

    A shallow embedding of [gtfsrtk/main.py]: [get_timestamp],
    [extract_delays], [combine_delays], [build_augmented_stop_times],
    [clean_augmented_stop_times], [append_delay_col],
    [interpolate_delays] and the loop of [collect_feeds].

    Data frames are lists of row records in frame order; a null cell
    (NaN or [None]) is [None].  Python exceptions are an explicit
    error result.  Feeds are decoded JSON trees.  Numeric delay and
    distance columns are exact rationals.

    What the code takes from elsewhere is modelled as documented:
    [sort_values] on several columns is a stable sort, [pd.concat]
    refuses an empty list, a left [merge] repeats a left row once per
    matching right row, [groupby().apply] hands each trip's rows to the
    function in frame order and puts the results back in place,
    [np.interp] interpolates over sample points given in increasing
    order.  The functions of the utilities module are parameters. *)

From Stdlib Require Import ZArith QArith Qround Qabs List String Ascii Bool.
From Stdlib Require Import Lia Lqa.
From Stdlib Require Import Sorting.Sorted Permutation OrderedTypeEx.
From Stdlib Require Import DecimalString DecimalZ DecimalPos.
Import ListNotations.

Local Open Scope Z_scope.
Local Open Scope string_scope.
Local Open Scope list_scope.

(** ** Python exceptions and fallible results *)

Inductive exn : Type :=
| TypeError
| KeyError
| ValueError
| AttributeError
| ZeroDivisionError.

Inductive result (A : Type) : Type :=
| Ok (a : A)
| Raise (e : exn).

Arguments Ok {A} a.
Arguments Raise {A} e.

Definition bind {A B : Type} (m : result A) (k : A -> result B) : result B :=
  match m with
  | Ok a => k a
  | Raise e => Raise e
  end.

Notation "'do' x <- m ; k" := (bind m (fun x => k))
  (at level 10, x name, m at level 100, k at level 200).

(** ** Sort keys

    [sort_values(['route_id', 'trip_id', 'stop_sequence'])] orders rows by
    the lexicographic order of the three columns; strings compare
    character by character. *)

Definition key : Type := (string * string * Z)%type.

Section Comparisons.
Context {A B : Type}.

(** Column by column: the first column decides unless it ties. *)
Definition pair_compare (ca : A -> A -> comparison)
           (cb : B -> B -> comparison) (x y : A * B) : comparison :=
  match ca (fst x) (fst y) with
  | Eq => cb (snd x) (snd y)
  | c => c
  end.

Definition leb_of (cmp : A -> A -> comparison) (x y : A) : bool :=
  match cmp x y with
  | Gt => false
  | _ => true
  end.

Definition eqb_of (cmp : A -> A -> comparison) (x y : A) : bool :=
  match cmp x y with
  | Eq => true
  | _ => false
  end.
End Comparisons.

(** What makes a comparison a total order. *)
Record comparison_order {A : Type} (cmp : A -> A -> comparison) : Prop := {
  cmp_eq_iff : forall a b, cmp a b = Eq <-> a = b;
  cmp_antisym : forall a b, cmp a b = CompOpp (cmp b a);
  cmp_lt_trans : forall a b c, cmp a b = Lt -> cmp b c = Lt -> cmp a c = Lt
}.

Definition key_compare : key -> key -> comparison :=
  pair_compare (pair_compare String.compare String.compare) Z.compare.

Definition key_leb : key -> key -> bool := leb_of key_compare.

Definition key_eqb : key -> key -> bool := eqb_of key_compare.

(** Stable insertion sort on a key projection: the model of the stable
    multi-column [DataFrame.sort_values]. *)
Section StableSort.
Context {A K : Type} (leb : K -> K -> bool) (proj : A -> K).

Fixpoint insert_by (x : A) (l : list A) : list A :=
  match l with
  | [] => [x]
  | y :: l' => if leb (proj x) (proj y) then x :: l
               else y :: insert_by x l'
  end.

Fixpoint sort_by (l : list A) : list A :=
  match l with
  | [] => []
  | x :: l' => insert_by x (sort_by l')
  end.
End StableSort.

(** ** Delay observation frames *)

Section Observations.
(** [V] is the type of a non-null delay value as the feed carries it. *)
Context {V : Type} (V_eq_dec : forall a b : V, {a = b} + {a <> b}).

Record DelayRow : Type := mkDelayRow {
  route_id : string;
  trip_id : string;
  stop_sequence : Z;
  stop_id : string;
  arrival_delay : option V;
  departure_delay : option V
}.

Definition DelayRow_eq_dec (a b : DelayRow) : {a = b} + {a <> b}.
Proof.
  decide equality; try apply string_dec; try apply Z.eq_dec;
    decide equality.
Defined.

Definition row_key (r : DelayRow) : key :=
  (route_id r, trip_id r, stop_sequence r).

Definition isnull {T : Type} (c : option T) : bool :=
  match c with
  | None => true
  | Some _ => false
  end.

Definition notnull {T : Type} (c : option T) : bool := negb (isnull c).

(** [pd.concat]: refuses an empty list of frames. *)
Definition pd_concat (frames : list (list DelayRow))
  : result (list DelayRow) :=
  match frames with
  | [] => Raise ValueError
  | _ => Ok (List.concat frames)
  end.

(** [DataFrame.drop_duplicates]: keeps the first of identical rows. *)
Fixpoint drop_duplicates_from (seen rows : list DelayRow)
  : list DelayRow :=
  match rows with
  | [] => []
  | r :: rest =>
      if in_dec DelayRow_eq_dec r seen
      then drop_duplicates_from seen rest
      else r :: drop_duplicates_from (r :: seen) rest
  end.

Definition drop_duplicates (rows : list DelayRow) : list DelayRow :=
  drop_duplicates_from [] rows.

(** [dropna(subset=['arrival_delay', 'departure_delay'], how='all')]. *)
Definition dropna_all (rows : list DelayRow) : list DelayRow :=
  filter (fun r => notnull (arrival_delay r) || notnull (departure_delay r))
         rows.

Definition sort_values (rows : list DelayRow) : list DelayRow :=
  sort_by key_leb row_key rows.

Definition set_arrival (v : option V) (r : DelayRow) : DelayRow :=
  mkDelayRow (route_id r) (trip_id r) (stop_sequence r) (stop_id r)
             v (departure_delay r).

Definition set_departure (v : option V) (r : DelayRow) : DelayRow :=
  mkDelayRow (route_id r) (trip_id r) (stop_sequence r) (stop_id r)
             (arrival_delay r) v.

(** The body of the duplicate branch: [kept] is [new_rows[-1]]. *)
Definition backfill (kept row : DelayRow) : DelayRow :=
  if isnull (arrival_delay kept) || isnull (departure_delay kept) then
    let kept1 :=
      if notnull (arrival_delay row) && isnull (arrival_delay kept)
      then set_arrival (arrival_delay row) kept else kept in
    if notnull (departure_delay row) && isnull (departure_delay kept1)
    then set_departure (departure_delay row) kept1 else kept1
  else kept.

Definition array_equal (tup : key) (prev_tup : option key) : bool :=
  match prev_tup with
  | None => false
  | Some p => key_eqb tup p
  end.

(** The loop over [f.iterrows()], with its two variables as state.
    [prev_tup] is set only when a row is appended, so [new_rows] has a
    last row whenever the duplicate branch is taken. *)
Fixpoint walk (prev_tup : option key) (new_rows rows : list DelayRow)
  : list DelayRow :=
  match rows with
  | [] => new_rows
  | row :: rest =>
      let tup := row_key row in
      if array_equal tup prev_tup then
        match rev new_rows with
        | kept :: before =>
            walk prev_tup (rev before ++ [backfill kept row]) rest
        | [] => walk prev_tup new_rows rest
        end
      else walk (Some tup) (new_rows ++ [row]) rest
  end.

Definition merge_order (frames : list DelayRow) : list DelayRow :=
  sort_values (dropna_all (drop_duplicates frames)).

Definition combine_delays (delays_list : list (list DelayRow))
  : result (list DelayRow) :=
  do f <- pd_concat delays_list;
  Ok (walk None [] (merge_order f)).

End Observations.

Arguments DelayRow V : clear implicits.
Arguments mkDelayRow {V}.

(** ** Decoded JSON and the Python operations the parser applies to it

    Feeds are Python objects decoded from JSON: [None], booleans, numbers
    (the integers the feed format carries), strings, lists and dicts. *)

#[warnings="-register-all"]
Inductive json : Type :=
| JNull
| JBool (b : bool)
| JNum (n : Z)
| JStr (s : string)
| JArr (items : list json)
| JObj (members : list (string * json)).

Fixpoint json_eq_dec (a b : json) {struct a} : {a = b} + {a <> b}.
Proof.
  destruct a as [ | x | x | x | xs | ms ];
    destruct b as [ | y | y | y | ys | ns ];
    try (right; discriminate); try (left; reflexivity).
  - destruct (Bool.bool_dec x y); [left | right]; congruence.
  - destruct (Z.eq_dec x y); [left | right]; congruence.
  - destruct (string_dec x y); [left | right]; congruence.
  - assert (D : {xs = ys} + {xs <> ys}).
    { revert ys. induction xs as [ | x xs IH ]; intros [ | y ys ];
        try (right; discriminate); try (left; reflexivity).
      destruct (json_eq_dec x y); [ | right; congruence ].
      destruct (IH ys); [left | right]; congruence. }
    destruct D; [left | right]; congruence.
  - assert (D : {ms = ns} + {ms <> ns}).
    { revert ns. induction ms as [ | [k x] ms IH ]; intros [ | [l y] ns ];
        try (right; discriminate); try (left; reflexivity).
      destruct (string_dec k l); [ | right; congruence ].
      destruct (json_eq_dec x y); [ | right; congruence ].
      destruct (IH ns); [left | right]; congruence. }
    destruct D; [left | right]; congruence.
Defined.

Definition json_eqb (a b : json) : bool :=
  if json_eq_dec a b then true else false.

(** [not x] is true on these values. *)
Definition truthy (x : json) : bool :=
  match x with
  | JNull => false
  | JBool b => b
  | JNum n => negb (Z.eqb n 0)
  | JStr s => negb (String.eqb s EmptyString)
  | JArr items => negb (Nat.eqb (List.length items) 0)
  | JObj members => negb (Nat.eqb (List.length members) 0)
  end.

Fixpoint lookup (k : string) (members : list (string * json)) : option json :=
  match members with
  | [] => None
  | (k', v) :: rest => if String.eqb k k' then Some v else lookup k rest
  end.

(** [x[k]] for a string [k]. *)
Definition subscript (x : json) (k : string) : result json :=
  match x with
  | JObj members =>
      match lookup k members with
      | Some v => Ok v
      | None => Raise KeyError
      end
  | _ => Raise TypeError
  end.

Definition is_substring (k s : string) : bool :=
  match String.index 0 k s with
  | Some _ => true
  | None => false
  end.

(** [k in x] for a string [k]. *)
Definition contains (k : string) (x : json) : result bool :=
  match x with
  | JObj members => Ok (notnull (lookup k members))
  | JArr items => Ok (existsb (json_eqb (JStr k)) items)
  | JStr s => Ok (is_substring k s)
  | _ => Raise TypeError
  end.

Fixpoint chars (s : string) : list json :=
  match s with
  | EmptyString => []
  | String c s' => JStr (String c EmptyString) :: chars s'
  end.

(** [for e in x]. *)
Definition iterate (x : json) : result (list json) :=
  match x with
  | JArr items => Ok items
  | JObj members => Ok (map (fun m => JStr (fst m)) members)
  | JStr s => Ok (chars s)
  | _ => Raise TypeError
  end.

Definition str_of_Z (n : Z) : string :=
  DecimalString.NilZero.string_of_int (Z.to_int n).

(** [int(s)] on a string: an optional sign and decimal digits. *)
Definition int_of_str (s : string) : result Z :=
  let parsed :=
    match s with
    | String c rest =>
        if Ascii.eqb c "+"
        then option_map Decimal.Pos
                        (DecimalString.NilZero.uint_of_string rest)
        else DecimalString.NilZero.int_of_string s
    | EmptyString => None
    end in
  match parsed with
  | Some d => Ok (Z.of_int d)
  | None => Raise ValueError
  end.

(** [int(x)]. *)
Definition py_int (x : json) : result Z :=
  match x with
  | JNum n => Ok n
  | JBool b => Ok (if b then 1 else 0)
  | JStr s => int_of_str s
  | _ => Raise TypeError
  end.

Fixpoint py_repr (x : json) : string :=
  match x with
  | JNull => "None"
  | JBool b => if b then "True" else "False"
  | JNum n => str_of_Z n
  | JStr s => ("'" ++ s ++ "'")%string
  | JArr items =>
      ("[" ++ String.concat ", " (map py_repr items) ++ "]")%string
  | JObj members =>
      ("{" ++ String.concat ", "
                (map (fun m => match m with
                               | (k, v) =>
                                   ("'" ++ k ++ "': " ++ py_repr v)%string
                               end) members) ++ "}")%string
  end.

(** [str(x)]: a string is itself, anything else prints as Python shows it. *)
Definition py_str (x : json) : string :=
  match x with
  | JStr s => s
  | _ => py_repr x
  end.

(** A delay cell of the frame: [None] and NaN are both null. *)
Definition cell_of (d : json) : option json :=
  match d with
  | JNull => None
  | _ => Some d
  end.

Section Parser.
(** [ut.timestamp_to_str(t, timestamp_format)], from the utilities
    module, for the format the caller chose. *)
Variable timestamp_to_str : json -> result string.

Definition get_timestamp (feed : json) : result (option string) :=
  if negb (truthy feed) then Ok None
  else
    do r <- subscript feed "response";
    do h <- subscript r "header";
    do t <- subscript h "timestamp";
    do s <- timestamp_to_str t;
    Ok (Some s).

(** One round of [for key in ['arrival', 'departure']]. *)
Definition read_delay (stu : json) (key : string) : result (option json) :=
  do present <- contains key stu;
  if present then
    do sub <- subscript stu key;
    do d <- subscript sub "delay";
    Ok (cell_of d)
  else Ok None.

(** The body of the loop over entities: [Ok None] is [continue],
    [Ok (Some row)] is [rows.append].  Identifiers are held as text. *)
Definition scan_entity (e : json) : result (option (DelayRow json)) :=
  do has_tu <- contains "trip_update" e;
  if negb has_tu then Ok None
  else
    do tu <- subscript e "trip_update";
    do trip <- subscript tu "trip";
    do rid <- subscript trip "route_id";
    do trip' <- subscript tu "trip";
    do tid <- subscript trip' "trip_id";
    do stu <- subscript tu "stop_time_update";
    do seq <- subscript stu "stop_sequence";
    do stop_sequence <- py_int seq;
    do sid <- subscript stu "stop_id";
    do arrival <- read_delay stu "arrival";
    do departure <- read_delay stu "departure";
    Ok (Some (mkDelayRow (py_str rid) (py_str tid) stop_sequence
                         (py_str sid) arrival departure)).

(** The loop, stopped by the first exception; the rows appended
    before it stay in [rows]. *)
Fixpoint scan_entities (rows : list (DelayRow json)) (es : list json)
  : list (DelayRow json) * option exn :=
  match es with
  | [] => (rows, None)
  | e :: rest =>
      match scan_entity e with
      | Ok None => scan_entities rows rest
      | Ok (Some row) => scan_entities (rows ++ [row]) rest
      | Raise x => (rows, Some x)
      end
  end.

(** [feed['response']['entity']], as the [for] statement walks it. *)
Definition entities (feed : json) : result (list json) :=
  do r <- subscript feed "response";
  do es <- subscript r "entity";
  iterate es.

(** The [try] block: its rows and the exception that left it, if any. *)
Definition try_scan (feed : json) : list (DelayRow json) * option exn :=
  match entities feed with
  | Ok es => scan_entities [] es
  | Raise x => ([], Some x)
  end.

(** [except (TypeError, KeyError): pass]. *)
Definition caught (x : exn) : bool :=
  match x with
  | TypeError | KeyError => true
  | _ => false
  end.

Definition extract_delays (feed : json)
  : result (list (DelayRow json) * option string) :=
  do t <- get_timestamp feed;
  let '(rows, escaped) := try_scan feed in
  match escaped with
  | Some x => if caught x then Ok (sort_values rows, t) else Raise x
  | None => Ok (sort_values rows, t)
  end.
End Parser.

(** ** Schedule clock strings (the schedule toolkit's helpers) *)

Fixpoint split_on (sep : ascii) (s : string) : list string :=
  match s with
  | EmptyString => [EmptyString]
  | String c s' =>
      if Ascii.eqb c sep then EmptyString :: split_on sep s'
      else match split_on sep s' with
           | [] => [String c EmptyString]
           | w :: ws => String c w :: ws
           end
  end.

(** ['{:02d}'.format(n)]. *)
Definition pad2 (n : Z) : string :=
  let s := str_of_Z n in
  if Nat.ltb (String.length s) 2 then String "0" s else s.

Definition hms (h m s : Z) : string :=
  (pad2 h ++ ":" ++ pad2 m ++ ":" ++ pad2 s)%string.

Definition parse_hms (x : string) : option (Z * Z * Z) :=
  match split_on ":" x with
  | [h; m; s] =>
      match int_of_str h, int_of_str m, int_of_str s with
      | Ok h', Ok m', Ok s' => Some (h', m', s')
      | _, _, _ => None
      end
  | _ => None
  end.

(** [gt.timestr_to_seconds(x)]: NaN, here [None], when [x] does not
    parse as HH:MM:SS. *)
Definition timestr_to_seconds (x : option string) : option Z :=
  match x with
  | Some t =>
      match parse_hms t with
      | Some (h, m, s) => Some (h * 3600 + m * 60 + s)
      | None => None
      end
  | None => None
  end.

(** [gt.timestr_to_seconds(x, inverse=True)]. *)
Definition seconds_to_timestr (x : option Z) : option string :=
  match x with
  | Some seconds =>
      let hours := seconds / 3600 in
      let remainder := seconds mod 3600 in
      Some (hms hours (remainder / 60) (remainder mod 60))
  | None => None
  end.

(** [gt.timestr_mod24(timestr)]. *)
Definition timestr_mod24 (timestr : option string) : option string :=
  match timestr with
  | Some t =>
      match parse_hms t with
      | Some (h, m, s) => Some (hms (h mod 24) m s)
      | None => None
      end
  | None => None
  end.

(** [s.replace(':', '')]. *)
Fixpoint remove_colons (s : string) : string :=
  match s with
  | EmptyString => EmptyString
  | String c s' =>
      if Ascii.eqb c ":" then remove_colons s'
      else String c (remove_colons s')
  end.

(** ** The schedule and the augmented stop times *)

Module Schedule.
Record StopTime : Type := mk {
  trip_id : string;
  stop_id : string;
  stop_sequence : Z;
  arrival_time : string;
  departure_time : string;
  shape_dist_traveled : option Q
}.
End Schedule.

Module Augmented.
Record StopTime (V : Type) : Type := mk {
  scheduled : Schedule.StopTime;
  arrival_delay : option V;
  departure_delay : option V
}.
Arguments mk {V}.
Arguments scheduled {V}.
Arguments arrival_delay {V}.
Arguments departure_delay {V}.
End Augmented.

(** [Series.max()] of a column of strings: they compare character by
    character; an empty column gives NaN, here [None]. *)
Fixpoint column_max (col : list string) : option string :=
  match col with
  | [] => None
  | t :: rest =>
      match column_max rest with
      | Some u => Some (if String.leb t u then u else t)
      | None => Some t
      end
  end.

(** The admission window's end, from the service date and the schedule's
    latest departure: [(end_date, end_time)], joined by the caller. *)
Definition window_end (date : string) (max_departure : option string)
  : result (string * string) :=
  let end_time :=
    match timestr_to_seconds max_departure with
    | Some s => Some (s + 20 * 60)
    | None => None
    end in
  do end_date <-
    match end_time with
    | Some s =>
        if Z.leb (24 * 3600) s
        then do d <- int_of_str date; Ok (str_of_Z (d + 1))
        else Ok date
    | None => Ok date
    end;
  match timestr_mod24 (seconds_to_timestr end_time) with
  | Some t => Ok (end_date, remove_colons t)
  | None => Raise AttributeError
  end.

Section Join.
Context {V : Type}.

Definition join_match (s : Schedule.StopTime) (d : DelayRow V) : bool :=
  String.eqb (Schedule.trip_id s) (trip_id d)
  && String.eqb (Schedule.stop_id s) (stop_id d)
  && Z.eqb (Schedule.stop_sequence s) (stop_sequence d).

(** [st.merge(delays, how='left', on=['trip_id', 'stop_id',
    'stop_sequence'])]: every left row, once per matching right row,
    or once with null delays when none matches. *)
Definition merge_left (st : list Schedule.StopTime)
           (delays : list (DelayRow V)) : list (Augmented.StopTime V) :=
  flat_map
    (fun s =>
       match filter (join_match s) delays with
       | [] => [Augmented.mk s None None]
       | matches =>
           map (fun d => Augmented.mk s (arrival_delay d)
                                      (departure_delay d)) matches
       end) st.

Definition trip_stop_leb : string * Z -> string * Z -> bool :=
  leb_of (pair_compare String.compare Z.compare).

Definition aug_key (a : Augmented.StopTime V) : string * Z :=
  (Schedule.trip_id (Augmented.scheduled a),
   Schedule.stop_sequence (Augmented.scheduled a)).
End Join.

Record snapshot_file : Type := mkFile {
  stem : string;
  content : option json   (* [None]: the file does not hold JSON *)
}.

Section Pipeline.
(** From the utilities module: the header timestamp in the default
    format, and a file stem read in the caller's format and printed
    in the default one. *)
Variable timestamp_to_str : json -> result string.
Variable stem_datetime : string -> result string.

Definition json_load (f : snapshot_file) : result json :=
  match content f with
  | Some tu => Ok tu
  | None => Raise ValueError
  end.

(** The loop over [gtfsr_path.iterdir()]. *)
Fixpoint admitted_frames (start_datetime end_datetime : string)
         (files : list snapshot_file) : result (list (list (DelayRow json))) :=
  match files with
  | [] => Ok []
  | f :: rest =>
      do datetime <- stem_datetime (stem f);
      if String.leb start_datetime datetime
         && String.leb datetime end_datetime
      then
        do tu <- json_load f;
        do parsed <- extract_delays timestamp_to_str tu;
        do frames <- admitted_frames start_datetime end_datetime rest;
        Ok (fst parsed :: frames)
      else admitted_frames start_datetime end_datetime rest
  end.

(** [gtfsr_path] is [None] when the directory does not exist; [st] is
    the schedule's stop times for [date]. *)
Definition build_augmented_stop_times
           (gtfsr_path : option (list snapshot_file))
           (st : list Schedule.StopTime) (date : string)
  : result (list (Augmented.StopTime json)) :=
  match gtfsr_path with
  | None => Raise ValueError
  | Some files =>
      let start_datetime := (date ++ "000000")%string in
      do w <- window_end date
                (column_max (map Schedule.departure_time st));
      let end_datetime := (fst w ++ snd w)%string in
      do delays_frames <- admitted_frames start_datetime end_datetime files;
      do delays <- combine_delays json_eq_dec delays_frames;
      (* [del delays['route_id']]: a frame built from no rows has
         no columns *)
      do columns <-
        match delays with
        | [] => Raise KeyError
        | _ => Ok tt
        end;
      Ok (sort_by trip_stop_leb aug_key (merge_left st delays))
  end.
End Pipeline.

(** ** The delay column and its interpolation

    The cleaning functions work on a table of stop times with numeric
    delay columns and an accurate [shape_dist_traveled] column. *)

Module Stops.
Record row : Type := mk {
  trip_id : string;
  stop_id : string;
  stop_sequence : Z;
  shape_dist_traveled : Q;
  arrival_delay : option Q;
  departure_delay : option Q;
  delay : option Q
}.
End Stops.

Record frame : Type := mkFrame {
  has_delay_col : bool;       (* is ['delay'] among [f.columns] *)
  rows : list Stops.row
}.

(** The column a [delay_col] argument names. *)
Inductive column : Type :=
| arrival_delay_col
| departure_delay_col
| delay_col.

Definition get_col (c : column) (r : Stops.row) : option Q :=
  match c with
  | arrival_delay_col => Stops.arrival_delay r
  | departure_delay_col => Stops.departure_delay r
  | delay_col => Stops.delay r
  end.

Definition set_col (c : column) (v : option Q) (r : Stops.row) : Stops.row :=
  let a := match c with arrival_delay_col => v
                      | _ => Stops.arrival_delay r end in
  let d := match c with departure_delay_col => v
                      | _ => Stops.departure_delay r end in
  let x := match c with delay_col => v | _ => Stops.delay r end in
  Stops.mk (Stops.trip_id r) (Stops.stop_id r) (Stops.stop_sequence r)
           (Stops.shape_dist_traveled r) a d x.

Definition in_columns (c : column) (f : frame) : bool :=
  match c with
  | delay_col => has_delay_col f
  | _ => true
  end.

(** [Series.count()]: the number of non-null cells. *)
Definition count (c : column) (group : list Stops.row) : nat :=
  List.length (filter (fun r => notnull (get_col c r)) group).

(** *** [groupby('trip_id').apply(g)]

    [g] receives each trip's rows in frame order and returns them
    changed; the result has every row back at its own position. *)

Definition group_of (t : string) (rs : list Stops.row) : list Stops.row :=
  filter (fun r => String.eqb (Stops.trip_id r) t) rs.

Fixpoint scatter (outs : string -> list Stops.row) (rs : list Stops.row)
  : list Stops.row :=
  match rs with
  | [] => []
  | r :: rest =>
      let t := Stops.trip_id r in
      match outs t with
      | o :: os =>
          o :: scatter (fun t' => if String.eqb t' t then os else outs t')
                       rest
      | [] => r :: scatter outs rest
      end
  end.

Definition groupby_apply (g : list Stops.row -> list Stops.row)
           (rs : list Stops.row) : list Stops.row :=
  scatter (fun t => g (group_of t rs)) rs.

(** *** [append_delay_col] *)

Definition last_delay (group : list Stops.row) : list Stops.row :=
  match rev group with
  | [] => group
  | r :: before =>
      rev before ++ [set_col delay_col (Stops.arrival_delay r) r]
  end.

Definition Qlt_bool (a b : Q) : bool := negb (Qle_bool b a).

(** [abs(delay) >= delay_cutoff]; false on a null cell. *)
Definition fishy (delay_cutoff : Q) (d : option Q) : bool :=
  match d with
  | Some v => Qle_bool delay_cutoff (Qabs v)
  | None => false
  end.

Definition nullify (delay_cutoff : Q) (r : Stops.row) : Stops.row :=
  if fishy delay_cutoff (Stops.delay r) then set_col delay_col None r else r.

Definition append_delay_col (delay_cutoff : Q) (f : frame) : frame :=
  let with_delay :=
    map (fun r => set_col delay_col (Stops.departure_delay r) r) (rows f) in
  let grouped := groupby_apply last_delay with_delay in
  mkFrame true (map (nullify delay_cutoff) grouped).

(** *** [interpolate_delays] *)

(** [np.interp(x, xp, fp)] at one point, for sample points in increasing
    order of [xp], given as pairs [(xp_k, fp_k)], first one apart. *)
Fixpoint interp_from (x : Q) (a : Q * Q) (rest : list (Q * Q)) : Q :=
  match rest with
  | [] => snd a
  | b :: rest' =>
      if Qle_bool (fst b) x then interp_from x b rest'
      else
        let slope := ((snd b - snd a) / (fst b - fst a))%Q in
        (slope * (x - fst a) + snd a)%Q
  end.

Definition np_interp (x : Q) (a : Q * Q) (rest : list (Q * Q)) : Q :=
  if Qlt_bool x (fst a) then snd a else interp_from x a rest.

(** [np.rint]: to the nearest integer, halves to the even one. *)
Definition rint (x : Q) : Z :=
  let f := Qfloor x in
  match Qcompare (x - inject_Z f)%Q (1 # 2)%Q with
  | Lt => f
  | Gt => f + 1
  | Eq => if Z.even f then f else f + 1
  end.

(** [Series.round(decimals)]. *)
Definition np_round (decimals : Z) (x : Q) : Q :=
  if Z.leb 0 decimals then
    let scale := inject_Z (10 ^ decimals) in
    Qred (inject_Z (rint (x * scale)%Q) / scale)%Q
  else
    let scale := inject_Z (10 ^ (- decimals)) in
    Qred (inject_Z (rint (x / scale)%Q) * scale)%Q.

(** The two rounds of [for i in [0, -1]]. *)
Inductive boundary : Type :=
| first_stop   (* i = 0 *)
| last_stop.   (* i = -1 *)

(** One round, on the group read from its [i] end: [j] is the first
    row with a non-null delay from that end. *)
Definition pin_head (c : column) (dist_threshold : Q)
           (group : list Stops.row) : list Stops.row :=
  match group with
  | [] => group
  | r :: rest =>
      match find (fun r' => notnull (get_col c r')) group with
      | None => group
      | Some j =>
          let dist_diff :=
            Qabs (Stops.shape_dist_traveled r
                  - Stops.shape_dist_traveled j)%Q in
          if Qlt_bool dist_threshold dist_diff
          then set_col c (Some 0%Q) r :: rest
          else set_col c (get_col c j) r :: rest
      end
  end.

Definition pin (i : boundary) (c : column) (dist_threshold : Q)
           (group : list Stops.row) : list Stops.row :=
  match i with
  | first_stop => pin_head c dist_threshold group
  | last_stop => rev (pin_head c dist_threshold (rev group))
  end.

(** The rows at [np.where(notnull)], as sample points. *)
Definition anchors (c : column) (group : list Stops.row) : list (Q * Q) :=
  flat_map (fun r => match get_col c r with
                     | Some v => [(Stops.shape_dist_traveled r, v)]
                     | None => []
                     end) group.

Definition fill (c : column) (dist_threshold : Q)
           (group : list Stops.row) : list Stops.row :=
  if Nat.eqb (count c group) 0 then group
  else
    let pinned :=
      fold_left (fun g i => pin i c dist_threshold g)
                [first_stop; last_stop] group in
    match anchors c pinned with
    | [] => pinned
    | a :: rest =>
        map (fun r =>
               set_col c (Some (np_interp (Stops.shape_dist_traveled r)
                                          a rest)) r) pinned
    end.

Definition round_col (c : column) (num_decimals : option Z)
           (rs : list Stops.row) : list Stops.row :=
  match num_decimals with
  | None => rs
  | Some d => map (fun r => set_col c (option_map (np_round d) (get_col c r)) r)
                  rs
  end.

Definition interpolate_delays (c : column) (dist_threshold : Q)
           (num_decimals : option Z) (f : frame) : frame :=
  if negb (in_columns c f) then f
  else if Nat.eqb (count c (rows f)) (List.length (rows f)) then f
  else
    mkFrame (has_delay_col f)
            (round_col c num_decimals
               (groupby_apply (fill c dist_threshold) (rows f))).

(** *** [clean_augmented_stop_times]

    The table comes with or without the two raw delay columns, and
    with or without a [shape_dist_traveled] column; that column, when
    it is there, is entirely null or entirely filled (the accurate
    column [interpolate_delays] asks for), and the rows hold its
    values only in the second case. *)

Inductive dist_column : Type :=
| dist_absent    (* ['shape_dist_traveled'] is not among [f.columns] *)
| dist_null      (* it is, and [notnull().any()] is false *)
| dist_filled.   (* it is, with a value in every row *)

Record augmented_frame : Type := mkAugmented {
  has_raw_delay_cols : bool;  (* ['arrival_delay'], ['departure_delay'] *)
  dist_col : dist_column;
  stops : frame
}.

(** [f.drop(['arrival_delay', 'departure_delay'], axis=1)]: the cells
    go with their columns. *)
Definition drop_raw_delays (f : frame) : frame :=
  mkFrame (has_delay_col f)
          (map (fun r => set_col arrival_delay_col None
                                 (set_col departure_delay_col None r))
               (rows f)).

(** [append_delay_col] reads [f['departure_delay']] first: a KeyError
    on a table without the raw delay columns. *)
Definition clean_augmented_stop_times
           (augmented_stop_times : augmented_frame) (dist_threshold : Q)
  : result augmented_frame :=
  if negb (has_raw_delay_cols augmented_stop_times) then Raise KeyError
  else
    let f := append_delay_col 3600 (stops augmented_stop_times) in
    let f := drop_raw_delays f in
    let f :=
      match dist_col augmented_stop_times with
      | dist_filled => interpolate_delays delay_col dist_threshold (Some 0) f
      | _ => f
      end in
    Ok (mkAugmented false (dist_col augmented_stop_times) f).

(** ** The collection loop

    [get_feed] is an oracle: its answer to the k-th call of the run is
    either a decoded feed or a [requests] exception.  The loops run on
    fuel; [None] means the fuel ran out before the loop was left. *)

Inductive response : Type :=
| Fetched (feed : json)
| RequestException.

Record collector : Type := mkCollector {
  attempts : nat;                          (* calls of [get_feed] so far *)
  written : list (option string * json);   (* files written: name, feed *)
  sleeps : nat                             (* calls of [time.sleep] *)
}.

Section Collect.
Variable timestamp_to_str : json -> result string.
Variable get_feed : nat -> response.
Variable num_tries : Z.

(** The body of the [while] loop on its variables [success] and [n]. *)
Definition attempt (s : bool * Z * collector) : result (bool * Z * collector) :=
  let '(success, n, w) := s in
  match get_feed (attempts w) with
  | Fetched feed =>
      do t <- get_timestamp timestamp_to_str feed;
      Ok (true, n + 1,
          mkCollector (S (attempts w)) (written w ++ [(t, feed)])
                      (sleeps w))
  | RequestException =>
      (* [continue]: back to the loop test, [n += 1] is skipped *)
      Ok (success, n, mkCollector (S (attempts w)) (written w) (sleeps w))
  end.

Fixpoint retry (fuel : nat) (s : bool * Z * collector)
  : option (result (bool * Z * collector)) :=
  let '(success, n, w) := s in
  if negb success && Z.leb n num_tries then
    match fuel with
    | O => None
    | S fuel' =>
        match attempt s with
        | Ok s' => retry fuel' s'
        | Raise e => Some (Raise e)
        end
    end
  else Some (Ok s).

(** One round of [for i in range(num_calls)]. *)
Definition cycle (fuel : nat) (w : collector) : option (result collector) :=
  match retry fuel (false, 1, w) with
  | None => None
  | Some (Raise e) => Some (Raise e)
  | Some (Ok (_, _, w')) =>
      Some (Ok (mkCollector (attempts w') (written w') (S (sleeps w'))))
  end.

Fixpoint cycles (fuel : nat) (num_calls : nat) (w : collector)
  : option (result collector) :=
  match num_calls with
  | O => Some (Ok w)
  | S k =>
      match cycle fuel w with
      | Some (Ok w') => cycles fuel k w'
      | other => other
      end
  end.

Definition collect_feeds (fuel : nat) (frequency duration : Z)
  : option (result collector) :=
  if Z.eqb frequency 0 then Some (Raise ZeroDivisionError)
  else cycles fuel (Z.to_nat (duration / frequency)) (mkCollector 0 [] 0).
End Collect.

(** ** Reference definitions for the statements below *)

Section MergeReference.
Context {V : Type}.

Definition has_delay (r : DelayRow V) : Prop :=
  arrival_delay r <> None \/ departure_delay r <> None.

(** The records of a frame that carry the key [k], in frame order. *)
Definition same_key_records (k : key) (rs : list (DelayRow V))
  : list (DelayRow V) :=
  filter (fun r => key_eqb (row_key r) k) rs.

(** The first non-null cell of a sequence of cells. *)
Fixpoint first_present (cells : list (option V)) : option V :=
  match cells with
  | [] => None
  | Some v :: _ => Some v
  | None :: rest => first_present rest
  end.

(** The walk as a function of the kept record and the rows to come. *)
Fixpoint merge_runs (kept : DelayRow V) (rs : list (DelayRow V))
  : list (DelayRow V) :=
  match rs with
  | [] => [kept]
  | r :: rest =>
      if key_eqb (row_key r) (row_key kept)
      then merge_runs (backfill kept r) rest
      else kept :: merge_runs r rest
  end.


End MergeReference.

(** A timestamp printed as it stands, the utilities' conversion when
    no format is given. *)
Definition plain_timestamp (t : json) : result string := Ok (py_str t).

(** A feed for the examples: one trip update per entity. *)
Definition sample_update (route trip stop : string) (seq delay : Z) : json :=
  JObj [("trip_update",
         JObj [("trip", JObj [("route_id", JStr route);
                              ("trip_id", JStr trip)]);
               ("stop_time_update",
                JObj [("stop_sequence", JNum seq);
                      ("stop_id", JStr stop);
                      ("arrival", JObj [("delay", JNum delay)])])])].


Definition sample_feed (es : list json) : json :=
  JObj [("response",
         JObj [("header", JObj [("timestamp", JNum 1463616000)]);
               ("entity", JArr es)])].

(** A file stem already written in the default format reads back as
    itself. *)
Definition default_stem (s : string) : result string := Ok s.

(** Strings of decimal digits. *)
Definition is_digit (c : ascii) : bool :=
  (N.leb 48 (N_of_ascii c) && N.leb (N_of_ascii c) 57)%bool.

Fixpoint all_digits (s : string) : bool :=
  match s with
  | EmptyString => true
  | String c s' => is_digit c && all_digits s'
  end.

(** The calendar date after [d], both written as YYYYMMDD numbers. *)
Definition is_leap (y : Z) : bool :=
  Z.eqb (y mod 4) 0 && (negb (Z.eqb (y mod 100) 0) || Z.eqb (y mod 400) 0).

Definition days_in_month (y m : Z) : Z :=
  if Z.eqb m 2 then (if is_leap y then 29 else 28)
  else if Z.eqb m 4 || Z.eqb m 6 || Z.eqb m 9 || Z.eqb m 11 then 30
  else 31.

Definition following_day (d : Z) : Z :=
  let y := d / 10000 in
  let m := (d / 100) mod 100 in
  let day := d mod 100 in
  if Z.ltb day (days_in_month y m) then d + 1
  else if Z.ltb m 12 then y * 10000 + (m + 1) * 100 + 1
  else (y + 1) * 10000 + 101.

Definition following_date (date : string) : result string :=
  do d <- int_of_str date;
  Ok (str_of_Z (following_day d)).





(** The code's own choice of the terminal stop: the last row of the
    trip in frame order. *)
Definition mark_last (rest : list Stops.row) (r : Stops.row) : Stops.row :=
  if existsb (fun r' => String.eqb (Stops.trip_id r') (Stops.trip_id r)) rest
  then r
  else set_col delay_col (Stops.arrival_delay r) r.

Fixpoint last_marks (rs : list Stops.row) : list Stops.row :=
  match rs with
  | [] => []
  | r :: rest => mark_last rest r :: last_marks rest
  end.

(** The boundary rule of the interpolation, stated on the group as it
    comes in: the value for the stop at one end, from the nearest stop
    with a known delay. *)
Definition boundary_delay (c : column) (dist_threshold : Q)
           (end_stop known : Stops.row) : option Q :=
  if Qlt_bool dist_threshold
              (Qabs (Stops.shape_dist_traveled end_stop
                     - Stops.shape_dist_traveled known)%Q)
  then Some 0%Q
  else get_col c known.

Definition known (c : column) (r : Stops.row) : bool := notnull (get_col c r).

Definition set_head (c : column) (v : option Q) (g : list Stops.row)
  : list Stops.row :=
  match g with
  | [] => []
  | r :: rest => set_col c v r :: rest
  end.

Definition set_last (c : column) (v : option Q) (g : list Stops.row)
  : list Stops.row :=
  rev (set_head c v (rev g)).

Definition pinned (c : column) (dist_threshold : Q) (g : list Stops.row)
  : list Stops.row :=
  match g, rev g, find (known c) g, find (known c) (rev g) with
  | first :: _, last :: _, Some j_first, Some j_last =>
      set_last c (boundary_delay c dist_threshold last j_last)
        (set_head c (boundary_delay c dist_threshold first j_first) g)
  | _, _, _, _ => g
  end.




Definition interpolated (c : column) (num_decimals : option Z)
           (g : list Stops.row) : list Stops.row :=
  round_col c num_decimals
    match anchors c g with
    | [] => g
    | a :: rest =>
        map (fun r =>
               set_col c (Some (np_interp (Stops.shape_dist_traveled r)
                                          a rest)) r) g
    end.

(** A row with the cell of column [c] blanked. *)
Definition forget (c : column) (r : Stops.row) : Stops.row :=
  set_col c None r.

Definition fully_resolved (f : frame) : Prop :=
  has_delay_col f = true /\
  Forall (fun r => Stops.delay r <> None) (rows f).


(** * Properties *)

(** ** Orders built from comparisons *)

Lemma string_order : comparison_order String.compare.
Proof.
  split.
  - apply String_as_OT.cmp_eq.
  - apply String_as_OT.cmp_antisym.
  - intros a b c Hab Hbc.
    apply String_as_OT.cmp_lt in Hab. apply String_as_OT.cmp_lt in Hbc.
    apply String_as_OT.cmp_lt. eapply String_as_OT.lt_trans; eassumption.
Qed.

Lemma Z_order : comparison_order Z.compare.
Proof.
  split.
  - apply Z.compare_eq_iff.
  - intros a b. apply Z.compare_antisym.
  - intros a b c. rewrite !Z.compare_lt_iff. lia.
Qed.

Lemma pair_order {A B : Type} (ca : A -> A -> comparison)
      (cb : B -> B -> comparison) :
  comparison_order ca -> comparison_order cb ->
  comparison_order (pair_compare ca cb).
Proof.
  intros [ea aa ta] [eb ab tb]. split.
  - intros [a1 b1] [a2 b2]. unfold pair_compare. simpl. split.
    + destruct (ca a1 a2) eqn:E; try discriminate.
      intros Hb. apply ea in E. apply eb in Hb. congruence.
    + intros H. inversion H; subst.
      rewrite (proj2 (ea a2 a2) eq_refl). now apply eb.
  - intros [a1 b1] [a2 b2]. unfold pair_compare. simpl.
    rewrite (aa a1 a2). destruct (ca a2 a1); simpl; auto.
  - intros [a1 b1] [a2 b2] [a3 b3]. unfold pair_compare. simpl.
    destruct (ca a1 a2) eqn:E12; try discriminate;
      destruct (ca a2 a3) eqn:E23; try discriminate; intros H1 H2.
    + apply ea in E12. apply ea in E23. subst.
      rewrite (proj2 (ea a3 a3) eq_refl). eauto.
    + apply ea in E12. subst. now rewrite E23.
    + apply ea in E23. subst. now rewrite E12.
    + now rewrite (ta _ _ _ E12 E23).
Qed.

Lemma key_order : comparison_order key_compare.
Proof.
  unfold key_compare.
  repeat apply pair_order; auto using string_order, Z_order.
Qed.

Section OrderFacts.
Context {A : Type} (cmp : A -> A -> comparison).
Hypothesis order : comparison_order cmp.

Lemma eqb_of_true (a b : A) : eqb_of cmp a b = true <-> a = b.
Proof.
  unfold eqb_of. rewrite <- (cmp_eq_iff cmp order).
  destruct (cmp a b); split; congruence.
Qed.

Lemma eqb_of_refl (a : A) : eqb_of cmp a a = true.
Proof. now apply eqb_of_true. Qed.

Lemma leb_of_total (a b : A) : leb_of cmp a b = false -> leb_of cmp b a = true.
Proof.
  unfold leb_of. rewrite (cmp_antisym cmp order b a).
  destruct (cmp a b); simpl; congruence.
Qed.

Lemma leb_of_trans (a b c : A) :
  leb_of cmp a b = true -> leb_of cmp b c = true -> leb_of cmp a c = true.
Proof.
  unfold leb_of.
  destruct (cmp a b) eqn:Eab; try discriminate;
    destruct (cmp b c) eqn:Ebc; try discriminate; intros _ _.
  - apply (cmp_eq_iff cmp order) in Eab, Ebc. subst.
    now rewrite (proj2 (cmp_eq_iff cmp order c c) eq_refl).
  - apply (cmp_eq_iff cmp order) in Eab. subst. now rewrite Ebc.
  - apply (cmp_eq_iff cmp order) in Ebc. subst. now rewrite Eab.
  - now rewrite (cmp_lt_trans cmp order _ _ _ Eab Ebc).
Qed.

Lemma leb_of_antisym (a b : A) :
  leb_of cmp a b = true -> leb_of cmp b a = true -> a = b.
Proof.
  unfold leb_of. rewrite (cmp_antisym cmp order b a).
  destruct (cmp a b) eqn:E; simpl; try discriminate.
  intros _ _. now apply (cmp_eq_iff cmp order).
Qed.
End OrderFacts.

(** ** The stable sort *)

Section SortFacts.
Context {A K : Type} (cmp : K -> K -> comparison) (proj : A -> K).
Hypothesis order : comparison_order cmp.

Let le (a b : A) : Prop := leb_of cmp (proj a) (proj b) = true.

Lemma insert_by_perm (x : A) (l : list A) :
  Permutation (insert_by (leb_of cmp) proj x l) (x :: l).
Proof.
  induction l as [ | y l IH ]; simpl.
  - reflexivity.
  - destruct (leb_of cmp (proj x) (proj y)).
    + reflexivity.
    + rewrite IH. apply perm_swap.
Qed.

Lemma sort_by_perm (l : list A) :
  Permutation (sort_by (leb_of cmp) proj l) l.
Proof.
  induction l as [ | x l IH ]; simpl.
  - reflexivity.
  - rewrite insert_by_perm. now apply perm_skip.
Qed.


Lemma insert_by_sorted (x : A) (l : list A) :
  StronglySorted le l ->
  StronglySorted le (insert_by (leb_of cmp) proj x l).
Proof.
  induction 1 as [ | y l Hs IH Hy ]; simpl.
  - repeat constructor.
  - destruct (leb_of cmp (proj x) (proj y)) eqn:E.
    + constructor; [ now constructor | ].
      constructor; [ exact E | ].
      eapply Forall_impl; [ | exact Hy ].
      intros z Hz. unfold le in *. eapply leb_of_trans; eauto.
    + constructor; [ exact IH | ].
      eapply Permutation_Forall.
      * symmetry. apply insert_by_perm.
      * constructor; [ | exact Hy ].
        unfold le. now apply leb_of_total.
Qed.

Lemma sort_by_sorted (l : list A) :
  StronglySorted le (sort_by (leb_of cmp) proj l).
Proof.
  induction l as [ | x l IH ]; simpl.
  - constructor.
  - now apply insert_by_sorted.
Qed.

(** Stability: rows of one key keep their order. *)
Lemma insert_by_filter (k : K) (x : A) (l : list A) :
  StronglySorted le l ->
  filter (fun a => eqb_of cmp (proj a) k) (insert_by (leb_of cmp) proj x l)
  = filter (fun a => eqb_of cmp (proj a) k) (x :: l).
Proof.
  induction 1 as [ | y l Hs IH Hy ].
  - reflexivity.
  - cbn [insert_by].
    destruct (leb_of cmp (proj x) (proj y)) eqn:E; [ reflexivity | ].
    cbn [filter] in *. rewrite IH.
    destruct (eqb_of cmp (proj x) k) eqn:Ex;
      destruct (eqb_of cmp (proj y) k) eqn:Ey; try reflexivity.
    apply (eqb_of_true cmp order) in Ex, Ey.
    rewrite <- Ey in Ex. rewrite Ex in E.
    unfold leb_of in E.
    now rewrite (proj2 (cmp_eq_iff cmp order _ _) eq_refl) in E.
Qed.

Lemma sort_by_stable (k : K) (l : list A) :
  filter (fun a => eqb_of cmp (proj a) k) (sort_by (leb_of cmp) proj l)
  = filter (fun a => eqb_of cmp (proj a) k) l.
Proof.
  induction l as [ | x l IH ].
  - reflexivity.
  - cbn [sort_by]. rewrite insert_by_filter by apply sort_by_sorted.
    cbn [filter]. now rewrite IH.
Qed.
End SortFacts.

(** ** Merging observations *)

Section MergeFacts.
Context {V : Type} (V_eq_dec : forall a b : V, {a = b} + {a <> b}).

Let row : Type := DelayRow V.

Let key_le (a b : row) : Prop := key_leb (row_key a) (row_key b) = true.

Lemma backfill_arrival (kept r : row) :
  arrival_delay (backfill kept r)
  = match arrival_delay kept with
    | Some v => Some v
    | None => arrival_delay r
    end.
Proof.
  unfold backfill.
  destruct kept as [ri ti sq si [a | ] [d | ]],
    r as [ri' ti' sq' si' [a' | ] [d' | ]];
    reflexivity.
Qed.

Lemma backfill_departure (kept r : row) :
  departure_delay (backfill kept r)
  = match departure_delay kept with
    | Some v => Some v
    | None => departure_delay r
    end.
Proof.
  unfold backfill.
  destruct kept as [ri ti sq si [a | ] [d | ]],
    r as [ri' ti' sq' si' [a' | ] [d' | ]];
    reflexivity.
Qed.

Lemma backfill_ids (kept r : row) :
  row_key (backfill kept r) = row_key kept
  /\ stop_id (backfill kept r) = stop_id kept.
Proof.
  unfold backfill.
  destruct kept as [ri ti sq si [a | ] [d | ]],
    r as [ri' ti' sq' si' [a' | ] [d' | ]];
    split; reflexivity.
Qed.

Lemma backfill_key (kept r : row) : row_key (backfill kept r) = row_key kept.
Proof. apply backfill_ids. Qed.

Lemma backfill_has_delay (kept r : row) :
  has_delay kept -> has_delay (backfill kept r).
Proof.
  unfold has_delay. rewrite backfill_arrival, backfill_departure.
  destruct (arrival_delay kept), (departure_delay kept);
    intros [H | H]; try congruence; auto; left; congruence.
Qed.

(** The loop, once a record is kept, is [merge_runs]. *)
Lemma walk_merge_runs (rs before : list row) (kept : row) :
  walk (Some (row_key kept)) (before ++ [kept]) rs
  = before ++ merge_runs kept rs.
Proof.
  revert before kept.
  induction rs as [ | r rest IH ]; intros before kept.
  - reflexivity.
  - cbn [walk merge_runs array_equal].
    destruct (key_eqb (row_key r) (row_key kept)) eqn:E.
    + rewrite rev_app_distr. cbn [rev app]. rewrite rev_involutive.
      rewrite <- (backfill_key kept r) at 1. apply IH.
    + rewrite IH, <- app_assoc. reflexivity.
Qed.

Lemma walk_from_start (rs : list row) :
  walk None [] rs
  = match rs with
    | [] => []
    | r :: rest => merge_runs r rest
    end.
Proof.
  destruct rs as [ | r rest ]; [ reflexivity | ].
  cbn [walk array_equal]. apply (walk_merge_runs rest [] r).
Qed.

Lemma merge_runs_has_delay (rs : list row) (kept : row) :
  has_delay kept -> Forall has_delay rs ->
  Forall has_delay (merge_runs kept rs).
Proof.
  revert kept. induction rs as [ | r rest IH ]; intros kept Hk Hrs.
  - cbn. constructor; [ assumption | constructor ].
  - inversion Hrs; subst. cbn [merge_runs].
    destruct (key_eqb (row_key r) (row_key kept)).
    + apply IH; auto using backfill_has_delay.
    + constructor; auto.
Qed.

Lemma key_le_same (a b : row) (l : list row) :
  row_key a = row_key b ->
  StronglySorted key_le (b :: l) -> StronglySorted key_le (a :: l).
Proof.
  intros E H. inversion H; subst. constructor; [ assumption | ].
  eapply Forall_impl; [ | eassumption ].
  unfold key_le. intros z. now rewrite E.
Qed.

Lemma key_lt_of_le_neq (a b : key) :
  key_leb a b = true -> key_eqb b a = false -> key_compare a b = Lt.
Proof.
  unfold key_leb, key_eqb, leb_of, eqb_of.
  rewrite (cmp_antisym _ key_order b a).
  destruct (key_compare a b); simpl; congruence.
Qed.

Lemma key_lt_le_trans (a b c : key) :
  key_compare a b = Lt -> key_leb b c = true -> key_compare a c = Lt.
Proof.
  unfold key_leb, leb_of. intros Hab.
  destruct (key_compare b c) eqn:Hbc; try discriminate; intros _.
  - apply (cmp_eq_iff _ key_order) in Hbc. now subst.
  - eapply (cmp_lt_trans _ key_order); eassumption.
Qed.

Lemma key_lt_irrefl (a : key) : key_compare a a <> Lt.
Proof.
  now rewrite (proj2 (cmp_eq_iff _ key_order a a) eq_refl).
Qed.

(** On sorted rows the kept records come out with strictly
    increasing keys, none below the first kept one. *)
Lemma merge_runs_keys (rs : list row) (kept : row) :
  StronglySorted key_le (kept :: rs) ->
  StronglySorted (fun a b => key_compare a b = Lt)
                 (map row_key (merge_runs kept rs))
  /\ Forall (fun k => key_leb (row_key kept) k = true)
            (map row_key (merge_runs kept rs)).
Proof.
  revert kept. induction rs as [ | r rest IH ]; intros kept Hs.
  - cbn. split; repeat constructor.
    apply (leb_of_trans _ key_order) with (b := row_key kept);
      unfold leb_of;
      now rewrite (proj2 (cmp_eq_iff _ key_order _ _) eq_refl).
  - cbn [merge_runs].
    destruct (key_eqb (row_key r) (row_key kept)) eqn:E.
    + assert (Hs' : StronglySorted key_le (backfill kept r :: rest)).
      { apply key_le_same with (b := kept); [ apply backfill_key | ].
        inversion Hs as [ | x l Hl Hx ]; subst.
        inversion Hl; subst. inversion Hx; subst.
        now constructor. }
      destruct (IH _ Hs') as [S1 S2]. split; [ exact S1 | ].
      now rewrite backfill_key in S2.
    + inversion Hs as [ | x l Hl Hx ]; subst.
      inversion Hx as [ | x l Hr Hrest ]; subst.
      destruct (IH _ Hl) as [S1 S2].
      assert (Hlt : key_compare (row_key kept) (row_key r) = Lt)
        by now apply key_lt_of_le_neq.
      assert (Hall : Forall (fun k => key_compare (row_key kept) k = Lt)
                            (map row_key (merge_runs r rest))).
      { eapply Forall_impl; [ | exact S2 ].
        intros k Hk. eapply key_lt_le_trans; eassumption. }
      cbn [map]. split.
      * now constructor.
      * constructor.
        { unfold key_leb, leb_of.
          now rewrite (proj2 (cmp_eq_iff _ key_order _ _) eq_refl). }
        eapply Forall_impl; [ | exact Hall ].
        intros k Hk. unfold key_leb, leb_of. now rewrite Hk.
Qed.

Lemma strictly_sorted_NoDup (ks : list key) :
  StronglySorted (fun a b => key_compare a b = Lt) ks -> NoDup ks.
Proof.
  induction 1 as [ | k ks Hs IH Hk ]; constructor; auto.
  intros Hin. rewrite Forall_forall in Hk.
  exact (key_lt_irrefl k (Hk k Hin)).
Qed.

Lemma merge_order_sorted (f : list row) :
  StronglySorted key_le (merge_order V_eq_dec f).
Proof. apply (sort_by_sorted key_compare row_key key_order). Qed.

Lemma merge_order_has_delay (f : list row) :
  Forall has_delay (merge_order V_eq_dec f).
Proof.
  unfold merge_order, sort_values.
  eapply Permutation_Forall.
  - symmetry. apply (sort_by_perm key_compare row_key).
  - unfold dropna_all. apply Forall_forall. intros r Hr.
    apply filter_In in Hr. destruct Hr as [_ Hr].
    unfold has_delay, notnull, isnull in *.
    destruct (arrival_delay r), (departure_delay r); simpl in Hr;
      try discriminate; (left; discriminate) || (right; discriminate).
Qed.

Lemma combine_delays_returns (delays_list : list (list row)) :
  delays_list <> [] ->
  combine_delays V_eq_dec delays_list
  = Ok (walk None [] (merge_order V_eq_dec (List.concat delays_list))).
Proof.
  destruct delays_list; [ congruence | reflexivity ].
Qed.

Lemma combine_delays_inv (delays_list : list (list row)) (out : list row) :
  combine_delays V_eq_dec delays_list = Ok out ->
  delays_list <> []
  /\ out = walk None [] (merge_order V_eq_dec (List.concat delays_list)).
Proof.
  destruct delays_list; cbn; [ discriminate | ].
  intros H. inversion H. split; [ discriminate | reflexivity ].
Qed.
End MergeFacts.

Section BackfillFacts.
Context {V : Type} (V_eq_dec : forall a b : V, {a = b} + {a <> b}).

Let row : Type := DelayRow V.
Let key_le (a b : row) : Prop := key_leb (row_key a) (row_key b) = true.

(** What a kept record holds after it met the later records of its
    key, one after the other. *)
Lemma absorbed (later : list row) (first : row) :
  let o := fold_left backfill later first in
  row_key o = row_key first
  /\ stop_id o = stop_id first
  /\ arrival_delay o
     = first_present (arrival_delay first :: map arrival_delay later)
  /\ departure_delay o
     = first_present (departure_delay first :: map departure_delay later).
Proof.
  revert first. induction later as [ | r later IH ]; intros first; cbn.
  - repeat split; [ now destruct (arrival_delay first)
                  | now destruct (departure_delay first) ].
  - destruct (IH (backfill first r)) as (Hk & Hs & Ha & Hd).
    cbn in Ha, Hd. rewrite Hk, Hs, Ha, Hd.
    rewrite backfill_arrival, backfill_departure.
    destruct (backfill_ids first r) as [Hk' Hs'].
    repeat split; auto;
      [ now destruct (arrival_delay first)
      | now destruct (departure_delay first) ].
Qed.

Lemma same_key_records_none (k : key) (rs : list row) :
  Forall (fun r => key_compare k (row_key r) = Lt) rs ->
  same_key_records k rs = [].
Proof.
  induction 1 as [ | r rs Hr Hrs IH ]; [ reflexivity | ].
  unfold same_key_records in *. cbn [filter].
  replace (key_eqb (row_key r) k) with false; [ exact IH | ].
  unfold key_eqb, eqb_of. rewrite (cmp_antisym _ key_order), Hr.
  reflexivity.
Qed.

Lemma same_key_records_key (k : key) (rs : list row) (r : row) :
  In r (same_key_records k rs) -> row_key r = k.
Proof.
  unfold same_key_records. intros H. apply filter_In in H.
  now apply (eqb_of_true _ key_order).
Qed.

(** Every record the walk keeps is the first record of its key in the
    sorted rows, once it has absorbed the later ones. *)
Lemma merge_runs_In (rs : list row) (kept o : row) :
  StronglySorted key_le (kept :: rs) ->
  In o (merge_runs kept rs) ->
  (row_key o = row_key kept
   /\ o = fold_left backfill (same_key_records (row_key kept) rs) kept)
  \/ (key_compare (row_key kept) (row_key o) = Lt
      /\ exists first later,
           same_key_records (row_key o) rs = first :: later
           /\ o = fold_left backfill later first).
Proof.
  revert kept. induction rs as [ | r rest IH ]; intros kept Hs Hin.
  - cbn in Hin. destruct Hin as [ <- | [] ]. left. split; reflexivity.
  - cbn [merge_runs] in Hin. cbn [same_key_records filter].
    fold (same_key_records (row_key kept) rest).
    fold (same_key_records (row_key o) rest).
    inversion Hs as [ | x l Hl Hx ]; subst.
    inversion Hx as [ | x l Hr Hrest ]; subst.
    destruct (key_eqb (row_key r) (row_key kept)) eqn:E.
    + assert (Hs' : StronglySorted key_le (backfill kept r :: rest)).
      { apply key_le_same with (b := kept); [ apply backfill_key | ].
        inversion Hl; subst. now constructor. }
      destruct (IH _ Hs' Hin) as [[Hk Ho] | [Hlt Hex]];
        rewrite backfill_key in *.
      * left. split; assumption.
      * right. split; [ assumption | ].
        apply (eqb_of_true _ key_order) in E. rewrite E.
        replace (key_eqb (row_key kept) (row_key o)) with false; auto.
        unfold key_eqb, eqb_of. now rewrite Hlt.
    + assert (Hlt : key_compare (row_key kept) (row_key r) = Lt)
        by now apply key_lt_of_le_neq.
      destruct Hin as [ <- | Hin ].
      * left. split; [ reflexivity | ].
        rewrite same_key_records_none; [ reflexivity | ].
        inversion Hl; subst.
        eapply Forall_impl; [ | eassumption ].
        intros z Hz. eapply key_lt_le_trans; eassumption.
      * right. destruct (IH _ Hl Hin) as [[Hk Ho] | [Hlt' Hex]].
        -- rewrite Hk. split; [ assumption | ].
           rewrite (eqb_of_refl _ key_order). eauto.
        -- split; [ eapply (cmp_lt_trans _ key_order); eassumption | ].
           replace (key_eqb (row_key r) (row_key o)) with false; auto.
           unfold key_eqb, eqb_of. now rewrite Hlt'.
Qed.

Lemma walk_sorted_In (rs : list row) (o : row) :
  StronglySorted key_le rs ->
  In o (walk None [] rs) ->
  exists first later,
    same_key_records (row_key o) rs = first :: later
    /\ o = fold_left backfill later first.
Proof.
  intros Hs Hin. rewrite walk_from_start in Hin.
  destruct rs as [ | r rest ]; [ destruct Hin | ].
  destruct (merge_runs_In rest r o Hs Hin) as [[Hk Ho] | [Hlt Hex]].
  - exists r, (same_key_records (row_key r) rest). split; [ | exact Ho ].
    cbn. rewrite Hk, (eqb_of_refl _ key_order). reflexivity.
  - destruct Hex as (first & later & Hf & Ho).
    exists first, later. split; [ | exact Ho ].
    cbn. fold (same_key_records (row_key o) rest).
    replace (key_eqb (row_key r) (row_key o)) with false; auto.
    unfold key_eqb, eqb_of. now rewrite Hlt.
Qed.
End BackfillFacts.

(** The sort does not reorder the records of one key: first in sort
    order is first among the concatenated, deduplicated records. *)
Lemma merge_order_stable {V : Type}
      (V_eq_dec : forall a b : V, {a = b} + {a <> b})
      (k : key) (f : list (DelayRow V)) :
  same_key_records k (merge_order V_eq_dec f)
  = same_key_records k (dropna_all (drop_duplicates V_eq_dec f)).
Proof.
  apply (sort_by_stable key_compare row_key key_order).
Qed.

Lemma walk_keys_NoDup {V : Type} (rs : list (DelayRow V)) :
  StronglySorted (fun a b => key_leb (row_key a) (row_key b) = true) rs ->
  NoDup (map row_key (walk None [] rs)).
Proof.
  intros Hs. rewrite walk_from_start. destruct rs as [ | r rest ].
  - constructor.
  - apply strictly_sorted_NoDup. now apply merge_runs_keys.
Qed.

(** C2.  Whatever list of delay frames [combine_delays] is given, the
    frame it returns holds no two records with the same
    (route_id, trip_id, stop_sequence) key and no record whose arrival
    and departure delays are both null. *)
Theorem combine_delays_unique_keys :
  forall (V : Type) (V_eq_dec : forall a b : V, {a = b} + {a <> b})
         (delays_list : list (list (DelayRow V))) (out : list (DelayRow V)),
    combine_delays V_eq_dec delays_list = Ok out ->
    NoDup (map row_key out) /\ Forall has_delay out.
Proof.
  intros V V_eq_dec delays_list out H.
  apply combine_delays_inv in H. destruct H as [_ ->]. split.
  - apply walk_keys_NoDup, merge_order_sorted.
  - rewrite walk_from_start.
    pose proof (merge_order_has_delay V_eq_dec (List.concat delays_list))
      as Hd.
    destruct (merge_order V_eq_dec (List.concat delays_list)) as [ | r rest ].
    + constructor.
    + inversion Hd; subst. now apply merge_runs_has_delay.
Qed.

Lemma combine_delays_unique_keys_witness :
  let a := mkDelayRow "R" "T" 1 "S" (Some 5) None in
  let b := mkDelayRow "R" "T" 1 "S" None (Some 7) in
  let c := mkDelayRow "R" "T" 2 "S2" (Some 9) None in
  let out := [mkDelayRow "R" "T" 1 "S" (Some 5) (Some 7); c] in
  combine_delays Z.eq_dec [[c; a]; [b; a]] = Ok out
  /\ NoDup (map row_key out) /\ Forall has_delay out.
Proof.
  intros a b c out. split; [ reflexivity | ].
  apply (combine_delays_unique_keys Z Z.eq_dec [[c; a]; [b; a]] out).
  reflexivity.
Defined.

(** C3.  First-wins backfill: every record [combine_delays] returns
    stands for the records sharing its key; it carries the identifiers
    and every present delay of the first of them in sort order, and a
    delay the first one lacks is the first present one among the later
    records.  In particular A = (arrival 5, departure absent) followed
    by B = (arrival absent, departure 7) with the same key merge into
    (arrival 5, departure 7). *)
Theorem combine_delays_first_wins :
  (forall (V : Type) (V_eq_dec : forall a b : V, {a = b} + {a <> b})
          (delays_list : list (list (DelayRow V)))
          (out : list (DelayRow V)) (o : DelayRow V),
      combine_delays V_eq_dec delays_list = Ok out ->
      In o out ->
      exists first later,
        same_key_records (row_key o)
                         (merge_order V_eq_dec (List.concat delays_list))
        = first :: later
        /\ row_key o = row_key first
        /\ stop_id o = stop_id first
        /\ (forall v, arrival_delay first = Some v ->
                      arrival_delay o = Some v)
        /\ (forall v, departure_delay first = Some v ->
                      departure_delay o = Some v)
        /\ (arrival_delay first = None ->
            arrival_delay o = first_present (map arrival_delay later))
        /\ (departure_delay first = None ->
            departure_delay o = first_present (map departure_delay later)))
  /\ (let a := mkDelayRow "R" "T" 1 "S" (Some 5) None in
      let b := mkDelayRow "R" "T" 1 "S" None (Some 7) in
      let merged := mkDelayRow "R" "T" 1 "S" (Some 5) (Some 7) in
      combine_delays Z.eq_dec [[a]; [b]] = Ok [merged]
      /\ combine_delays Z.eq_dec [[a; b]] = Ok [merged]).
Proof.
  split; [ | split; reflexivity ].
  intros V V_eq_dec delays_list out o H Hin.
  apply combine_delays_inv in H. destruct H as [_ ->].
  apply walk_sorted_In in Hin; [ | apply merge_order_sorted ].
  destruct Hin as (first & later & Hrecs & Ho).
  exists first, later. split; [ exact Hrecs | ].
  destruct (absorbed later first) as (Hk & Hs & Ha & Hd).
  rewrite <- Ho in Hk, Hs, Ha, Hd. cbn in Ha, Hd.
  repeat split; auto.
  - intros v Hv. now rewrite Ha, Hv.
  - intros v Hv. now rewrite Hd, Hv.
  - intros Hn. now rewrite Ha, Hn.
  - intros Hn. now rewrite Hd, Hn.
Qed.

Lemma combine_delays_first_wins_witness :
  let a := mkDelayRow "R" "T" 1 "S" (Some 5) None in
  let b := mkDelayRow "R" "T" 1 "S2" (Some 6) (Some 7) in
  let o := mkDelayRow "R" "T" 1 "S" (Some 5) (Some 7) in
  exists first later,
    same_key_records (row_key o)
                     (merge_order Z.eq_dec (List.concat [[a]; [b]]))
    = first :: later
    /\ row_key o = row_key first
    /\ stop_id o = stop_id first
    /\ (forall v, arrival_delay first = Some v -> arrival_delay o = Some v)
    /\ (forall v, departure_delay first = Some v ->
                  departure_delay o = Some v)
    /\ (arrival_delay first = None ->
        arrival_delay o = first_present (map arrival_delay later))
    /\ (departure_delay first = None ->
        departure_delay o = first_present (map departure_delay later)).
Proof.
  intros a b o.
  apply (proj1 combine_delays_first_wins Z Z.eq_dec [[a]; [b]] [o] o).
  - reflexivity.
  - left. reflexivity.
Defined.

(** ** The parser *)

Section ParserFacts.
Variable timestamp_to_str : json -> result string.



(** The rows already collected are never taken back. *)
Lemma scan_entities_keeps (es : list json) (acc : list (DelayRow json)) :
  exists more, fst (scan_entities acc es) = acc ++ more.
Proof.
  revert acc. induction es as [ | e es IH ]; intros acc; cbn.
  - exists []. now rewrite app_nil_r.
  - destruct (scan_entity e) as [ [row | ] | x ].
    + destruct (IH (acc ++ [row])) as [more Hm].
      exists (row :: more). now rewrite Hm, <- app_assoc.
    + apply IH.
    + exists []. now rewrite app_nil_r.
Qed.

(** X2. On a feed that Python counts as false ([None], an empty
    dict, ...) [extract_delays] raises nothing: the TypeError or
    KeyError of subscripting the feed is caught, and the result is an
    empty frame with no timestamp. *)
Lemma extract_delays_null_feed (feed : json) :
  truthy feed = false ->
  extract_delays timestamp_to_str feed = Ok ([], None).
Proof.
  intros H. unfold extract_delays, get_timestamp. rewrite H. cbn [negb bind].
  destruct feed as [ | b | n | s | [ | i items ] | [ | m members ] ];
    try discriminate; reflexivity.
Qed.
End ParserFacts.

(** The frame does not depend on how the timestamp is printed. *)
Lemma extract_delays_frame (timestamp_to_str : json -> result string)
      (feed : json) (t : option string) :
  get_timestamp timestamp_to_str feed = Ok t ->
  extract_delays timestamp_to_str feed
  = match extract_delays plain_timestamp feed with
    | Ok (rows, _) => Ok (rows, t)
    | Raise e => Raise e
    end.
Proof.
  intros Ht. unfold extract_delays. rewrite Ht. cbn [bind].
  unfold get_timestamp in *.
  destruct (negb (truthy feed)).
  - cbn [bind].
    destruct (try_scan feed) as [rows [ x | ]]; [ destruct (caught x) | ];
      reflexivity.
  - destruct (subscript feed "response") as [ r | e ]; [ | discriminate ].
    cbn [bind] in *.
    destruct (subscript r "header") as [ h | e ]; [ | discriminate ].
    cbn [bind] in *.
    destruct (subscript h "timestamp") as [ t' | e ]; [ | discriminate ].
    cbn [bind] in *. unfold plain_timestamp. cbn [bind].
    destruct (try_scan feed) as [rows [ x | ]]; [ destruct (caught x) | ];
      reflexivity.
Qed.




(** A stop sequence that is not a number is not caught at all. *)
Lemma extract_delays_value_error :
  let bad := JObj [("trip_update",
                    JObj [("trip", JObj [("route_id", JStr "R");
                                         ("trip_id", JStr "T")]);
                          ("stop_time_update",
                           JObj [("stop_sequence", JStr "first");
                                 ("stop_id", JStr "S")])])] in
  extract_delays plain_timestamp (sample_feed [bad]) = Raise ValueError.
Proof. reflexivity. Qed.

(** ** The schedule join *)

Section JoinFacts.
Context {V : Type}.




End JoinFacts.

(** C1 at work on a feed that names one trip under two routes: the
    merged observations are distinct by (route_id, trip_id,
    stop_sequence), the route is then dropped, and the one scheduled
    stop time comes out twice.  The utilities need only print the
    header timestamp and read the file stem back.  With no snapshot
    in the directory there is no output at all. *)
Theorem build_augmented_stop_times_adds_row :
  forall (timestamp_to_str : json -> result string)
         (stem_datetime : string -> result string) (s : string),
    timestamp_to_str (JNum 1463616000) = Ok s ->
    stem_datetime "20160519115900" = Ok "20160519115900" ->
    let st := [Schedule.mk "T" "S" 1 "12:00:00" "12:00:00" None] in
    let feed := sample_feed [sample_update "R1" "T" "S" 1 5;
                             sample_update "R2" "T" "S" 1 6] in
    let dir := Some [mkFile "20160519115900" (Some feed)] in
    build_augmented_stop_times timestamp_to_str stem_datetime dir st
                               "20160519"
    = Ok [Augmented.mk (Schedule.mk "T" "S" 1 "12:00:00" "12:00:00" None)
                       (Some (JNum 5)) None;
          Augmented.mk (Schedule.mk "T" "S" 1 "12:00:00" "12:00:00" None)
                       (Some (JNum 6)) None]
    /\ List.length st = 1%nat
    /\ build_augmented_stop_times timestamp_to_str stem_datetime (Some [])
                                  st "20160519"
       = Raise ValueError.
Proof.
  intros ts sd s Hts Hsd st feed dir.
  split; [ | split; reflexivity ].
  unfold build_augmented_stop_times, dir.
  change (window_end "20160519" (column_max (map Schedule.departure_time st)))
    with (Ok ("20160519", "122000")).
  cbn [bind fst snd admitted_frames stem]. rewrite Hsd.
  change (String.leb ("20160519" ++ "000000") "20160519115900"
          && String.leb "20160519115900" ("20160519" ++ "122000"))%bool
    with true.
  cbn [json_load content bind].
  rewrite (extract_delays_frame ts feed (Some s)).
  - reflexivity.
  - unfold get_timestamp. cbn. now rewrite Hts.
Qed.

Lemma build_augmented_stop_times_adds_row_witness :
  let st := [Schedule.mk "T" "S" 1 "12:00:00" "12:00:00" None] in
  let feed := sample_feed [sample_update "R1" "T" "S" 1 5;
                           sample_update "R2" "T" "S" 1 6] in
  let dir := Some [mkFile "20160519115900" (Some feed)] in
  build_augmented_stop_times plain_timestamp default_stem dir st "20160519"
  = Ok [Augmented.mk (Schedule.mk "T" "S" 1 "12:00:00" "12:00:00" None)
                     (Some (JNum 5)) None;
        Augmented.mk (Schedule.mk "T" "S" 1 "12:00:00" "12:00:00" None)
                     (Some (JNum 6)) None]
  /\ List.length st = 1%nat
  /\ build_augmented_stop_times plain_timestamp default_stem (Some [])
                                st "20160519"
     = Raise ValueError.
Proof.
  apply (build_augmented_stop_times_adds_row
           plain_timestamp default_stem "1463616000"); reflexivity.
Defined.

(** C8 at work: when the directory exists and no snapshot falls in the
    window, [pd.concat] is handed an empty list and the ValueError it
    raises leaves [build_augmented_stop_times]. *)
Theorem build_augmented_stop_times_no_snapshot :
  forall (timestamp_to_str : json -> result string)
         (stem_datetime : string -> result string)
         (files : list snapshot_file) (st : list Schedule.StopTime)
         (date : string) (w : string * string),
    window_end date (column_max (map Schedule.departure_time st)) = Ok w ->
    admitted_frames timestamp_to_str stem_datetime
                    (date ++ "000000") (fst w ++ snd w) files = Ok [] ->
    build_augmented_stop_times timestamp_to_str stem_datetime
                               (Some files) st date
    = Raise ValueError.
Proof.
  intros ts sd files st date w Hw Hfiles.
  unfold build_augmented_stop_times. rewrite Hw. cbn [bind].
  rewrite Hfiles. reflexivity.
Qed.

Lemma build_augmented_stop_times_no_snapshot_witness :
  let st := [Schedule.mk "T" "S" 1 "12:00:00" "12:00:00" None] in
  build_augmented_stop_times plain_timestamp default_stem (Some []) st
                             "20160519"
  = Raise ValueError
  /\ build_augmented_stop_times
       plain_timestamp default_stem
       (Some [mkFile "20160520115900" (Some (sample_feed []))]) st "20160519"
     = Raise ValueError.
Proof.
  intros st. split.
  - apply (build_augmented_stop_times_no_snapshot
             plain_timestamp default_stem [] st "20160519"
             ("20160519", "122000")); reflexivity.
  - apply (build_augmented_stop_times_no_snapshot
             plain_timestamp default_stem
             [mkFile "20160520115900" (Some (sample_feed []))] st "20160519"
             ("20160519", "122000")); reflexivity.
Defined.

(** Snapshots that are admitted but carry no delay at all end in the
    KeyError of [del delays['route_id']]. *)
Lemma build_augmented_stop_times_no_observation :
  let st := [Schedule.mk "T" "S" 1 "12:00:00" "12:00:00" None] in
  build_augmented_stop_times
    plain_timestamp default_stem
    (Some [mkFile "20160519115900" (Some (sample_feed []))]) st "20160519"
  = Raise KeyError.
Proof. reflexivity. Qed.

(** ** The collection loop *)

Section CollectFacts.
Variable timestamp_to_str : json -> result string.
Variable get_feed : nat -> response.
Variable num_tries : Z.

Hypothesis always_fails : forall k, get_feed k = RequestException.
Hypothesis tries : 1 <= num_tries.

(** A failed attempt leaves [success] and [n] as they were. *)
Lemma attempt_failed (success : bool) (n : Z) (w : collector) :
  attempt timestamp_to_str get_feed (success, n, w)
  = Ok (success, n, mkCollector (S (attempts w)) (written w) (sleeps w)).
Proof. unfold attempt. now rewrite always_fails. Qed.

Lemma retry_unfolds (k fuel : nat) (w : collector) :
  retry timestamp_to_str get_feed num_tries (k + fuel) (false, 1, w)
  = retry timestamp_to_str get_feed num_tries fuel
          (false, 1,
           mkCollector (k + attempts w) (written w) (sleeps w)).
Proof.
  revert w. induction k as [ | k IH ]; intros w.
  - destruct w. reflexivity.
  - cbn [Nat.add retry].
    replace (negb false && Z.leb 1 num_tries) with true
      by (symmetry; apply andb_true_intro; split;
          [ reflexivity | now apply Z.leb_le ]).
    rewrite attempt_failed, IH. cbn [attempts written sleeps].
    now rewrite Nat.add_succ_r.
Qed.

Lemma retry_out_of_fuel (fuel : nat) (w : collector) :
  retry timestamp_to_str get_feed num_tries fuel (false, 1, w) = None.
Proof.
  rewrite <- (Nat.add_0_r fuel), retry_unfolds. cbn [retry].
  replace (Z.leb 1 num_tries) with true
    by (symmetry; now apply Z.leb_le).
  reflexivity.
Qed.
End CollectFacts.

(** C10 at work: when every call of [get_feed] raises a request
    exception, the [continue] of the handler skips [n += 1]; the retry
    loop is still running, with [n = 1] and nothing written, after any
    number of attempts, and no amount of fuel lets it or the run end. *)
Theorem collect_feeds_retries_forever :
  forall (timestamp_to_str : json -> result string)
         (get_feed : nat -> response) (num_tries : Z),
    (forall k, get_feed k = RequestException) ->
    1 <= num_tries ->
    (forall (k fuel : nat) (w : collector),
        retry timestamp_to_str get_feed num_tries (k + fuel) (false, 1, w)
        = retry timestamp_to_str get_feed num_tries fuel
                (false, 1,
                 mkCollector (k + attempts w) (written w) (sleeps w)))
    /\ (forall (fuel : nat) (w : collector),
           retry timestamp_to_str get_feed num_tries fuel (false, 1, w)
           = None)
    /\ (forall (fuel : nat) (frequency duration : Z),
           0 < frequency -> frequency <= duration ->
           collect_feeds timestamp_to_str get_feed num_tries
                         fuel frequency duration = None).
Proof.
  intros ts get_feed num_tries Hfail Htries. split; [ | split ].
  - intros. now apply retry_unfolds.
  - intros. now apply retry_out_of_fuel.
  - intros fuel frequency duration Hf Hd. unfold collect_feeds.
    replace (Z.eqb frequency 0) with false by (symmetry; apply Z.eqb_neq; lia).
    assert (Hq : 1 <= duration / frequency)
      by (apply Z.div_le_lower_bound; lia).
    destruct (Z.to_nat (duration / frequency)) as [ | calls ] eqn:E;
      [ lia | ].
    cbn [cycles]. unfold cycle.
    now rewrite (retry_out_of_fuel ts get_feed num_tries Hfail Htries).
Qed.

Lemma collect_feeds_retries_forever_witness :
  collect_feeds plain_timestamp (fun _ => RequestException) 3
                1000 30 60 = None.
Proof.
  apply (proj2 (proj2 (collect_feeds_retries_forever
                         plain_timestamp (fun _ => RequestException) 3
                         (fun _ => eq_refl) ltac:(lia)))); lia.
Defined.

(** The loop the docstring describes is left as soon as a fetch
    succeeds: one file written, [n] advanced. *)
Lemma retry_first_success (feed : json) (t : option string) (w : collector) :
  get_timestamp plain_timestamp feed = Ok t ->
  retry plain_timestamp (fun _ => Fetched feed) 3 1 (false, 1, w)
  = Some (Ok (true, 2,
              mkCollector (S (attempts w)) (written w ++ [(t, feed)])
                          (sleeps w))).
Proof.
  intros Ht. cbn [retry negb andb Z.leb Z.compare Pos.compare Pos.compare_cont].
  unfold attempt. rewrite Ht. reflexivity.
Qed.

(** ** Grouping by trip *)

Section GroupFacts.

Lemma group_of_cons_same (r : Stops.row) (rs : list Stops.row) :
  group_of (Stops.trip_id r) (r :: rs) = r :: group_of (Stops.trip_id r) rs.
Proof. unfold group_of. cbn. now rewrite String.eqb_refl. Qed.

Lemma group_of_cons_other (t : string) (r : Stops.row) (rs : list Stops.row) :
  Stops.trip_id r <> t -> group_of t (r :: rs) = group_of t rs.
Proof.
  intros H. unfold group_of. cbn.
  now rewrite (proj2 (String.eqb_neq _ _) H).
Qed.

Lemma group_of_trip (t : string) (rs : list Stops.row) :
  Forall (fun r => Stops.trip_id r = t) (group_of t rs).
Proof.
  apply Forall_forall. intros r Hr. apply filter_In in Hr.
  now apply String.eqb_eq.
Qed.

(** A row-wise relation between what [g] is given and what it returns
    carries over to the frame. *)
Lemma scatter_Forall2 (R : Stops.row -> Stops.row -> Prop)
      (rs : list Stops.row) (outs : string -> list Stops.row) :
  (forall t, Forall2 R (group_of t rs) (outs t)) ->
  Forall2 R rs (scatter outs rs).
Proof.
  revert outs. induction rs as [ | r rest IH ]; intros outs H.
  - constructor.
  - cbn [scatter].
    pose proof (H (Stops.trip_id r)) as Hr.
    rewrite group_of_cons_same in Hr.
    inversion Hr as [ | x o l os Hxo Hrest ]; subst.
    constructor; [ assumption | ].
    apply IH. intros t.
    destruct (String.eqb_spec t (Stops.trip_id r)) as [-> | Hne].
    + assumption.
    + specialize (H t). rewrite group_of_cons_other in H; auto.
Qed.

Lemma groupby_apply_Forall2 (R : Stops.row -> Stops.row -> Prop)
      (g : list Stops.row -> list Stops.row) (rs : list Stops.row) :
  (forall l, Forall2 R l (g l)) -> Forall2 R rs (groupby_apply g rs).
Proof. intros H. apply scatter_Forall2. intros t. apply H. Qed.

(** Each trip's rows of the result are what [g] returned for the trip. *)
Lemma scatter_group (rs : list Stops.row) (outs : string -> list Stops.row) :
  (forall t, map Stops.trip_id (outs t) = map Stops.trip_id (group_of t rs)) ->
  forall t, group_of t (scatter outs rs) = outs t.
Proof.
  revert outs. induction rs as [ | r rest IH ]; intros outs H t.
  - specialize (H t). cbn in *. now destruct (outs t).
  - cbn [scatter].
    pose proof (H (Stops.trip_id r)) as Hr.
    rewrite group_of_cons_same in Hr.
    destruct (outs (Stops.trip_id r)) as [ | o os ] eqn:E;
      [ discriminate | ].
    cbn [map] in Hr. injection Hr as Ho Hos.
    set (outs' := fun t' => if String.eqb t' (Stops.trip_id r)
                            then os else outs t').
    assert (H' : forall t', map Stops.trip_id (outs' t')
                            = map Stops.trip_id (group_of t' rest)).
    { intros t'. unfold outs'.
      destruct (String.eqb_spec t' (Stops.trip_id r)) as [-> | Hne].
      - assumption.
      - specialize (H t'). rewrite group_of_cons_other in H; auto. }
    specialize (IH outs' H' t). unfold outs' in IH at 2.
    destruct (String.eqb_spec t (Stops.trip_id r)) as [-> | Hne].
    + rewrite <- Ho, group_of_cons_same. rewrite Ho. now rewrite IH, E.
    + rewrite group_of_cons_other by congruence. exact IH.
Qed.

Lemma groupby_apply_group (g : list Stops.row -> list Stops.row)
      (rs : list Stops.row) (t : string) :
  (forall l, map Stops.trip_id (g l) = map Stops.trip_id l) ->
  group_of t (groupby_apply g rs) = g (group_of t rs).
Proof.
  intros H. unfold groupby_apply.
  apply (scatter_group rs (fun t => g (group_of t rs))).
  intros t'. apply H.
Qed.

Lemma last_delay_single (r : Stops.row) :
  last_delay [r] = [set_col delay_col (Stops.arrival_delay r) r].
Proof. reflexivity. Qed.

Lemma last_delay_cons (r x : Stops.row) (l : list Stops.row) :
  last_delay (r :: x :: l) = r :: last_delay (x :: l).
Proof.
  unfold last_delay. cbn [rev].
  destruct (rev l ++ [x]) as [ | z before ] eqn:E.
  - destruct (rev l); discriminate.
  - cbn [app]. rewrite rev_app_distr. reflexivity.
Qed.

(** In the delay column builder the changed row of a trip is its last
    row in frame order. *)
Lemma scatter_last_delay (rs : list Stops.row)
      (outs : string -> list Stops.row) :
  (forall t, outs t = last_delay (group_of t rs)) ->
  scatter outs rs = last_marks rs.
Proof.
  revert outs. induction rs as [ | r rest IH ]; intros outs H.
  - reflexivity.
  - cbn [scatter last_marks].
    pose proof (H (Stops.trip_id r)) as Hr.
    rewrite group_of_cons_same in Hr.
    assert (Hex : existsb (fun r' => String.eqb (Stops.trip_id r')
                                                (Stops.trip_id r)) rest
                  = negb (Nat.eqb (List.length
                                     (group_of (Stops.trip_id r) rest)) 0)).
    { unfold group_of. clear. induction rest as [ | x rest IH ]; cbn.
      - reflexivity.
      - destruct (String.eqb (Stops.trip_id x) (Stops.trip_id r)); cbn; auto. }
    unfold mark_last. rewrite Hex.
    destruct (group_of (Stops.trip_id r) rest) as [ | x l ] eqn:G.
    + rewrite last_delay_single in Hr. rewrite Hr. cbn [List.length Nat.eqb negb].
      f_equal. apply IH. intros t.
      destruct (String.eqb_spec t (Stops.trip_id r)) as [-> | Hne].
      * now rewrite G.
      * rewrite H, group_of_cons_other; auto.
    + rewrite last_delay_cons in Hr. rewrite Hr. cbn [List.length Nat.eqb negb].
      f_equal. apply IH. intros t.
      destruct (String.eqb_spec t (Stops.trip_id r)) as [-> | Hne].
      * now rewrite G.
      * rewrite H, group_of_cons_other; auto.
Qed.

Lemma groupby_last_delay (rs : list Stops.row) :
  groupby_apply last_delay rs = last_marks rs.
Proof. unfold groupby_apply. now apply scatter_last_delay. Qed.
End GroupFacts.

(** ** The delay column *)

Lemma append_delay_col_rows (delay_cutoff : Q) (f : frame) :
  rows (append_delay_col delay_cutoff f)
  = map (nullify delay_cutoff)
        (last_marks
           (map (fun r => set_col delay_col (Stops.departure_delay r) r)
                (rows f))).
Proof. unfold append_delay_col. cbn [rows]. now rewrite groupby_last_delay. Qed.



Lemma existsb_map_trip (t : string) (h : Stops.row -> Stops.row)
      (rs : list Stops.row) :
  (forall r, Stops.trip_id (h r) = Stops.trip_id r) ->
  existsb (fun r' => String.eqb (Stops.trip_id r') t) (map h rs)
  = existsb (fun r' => String.eqb (Stops.trip_id r') t) rs.
Proof.
  intros H. induction rs as [ | r rs IH ]; cbn; [ reflexivity | ].
  now rewrite H, IH.
Qed.





(** ** What the cleaning functions leave alone *)

Section ColumnFacts.
Variable c : column.

Lemma forget_set_col (v : option Q) (r : Stops.row) :
  forget c (set_col c v r) = forget c r.
Proof. destruct c; reflexivity. Qed.

Lemma set_col_forget (v : option Q) (r : Stops.row) :
  set_col c v (forget c r) = set_col c v r.
Proof. destruct c; reflexivity. Qed.

Lemma get_set_col (v : option Q) (r : Stops.row) :
  get_col c (set_col c v r) = v.
Proof. destruct c; reflexivity. Qed.

Lemma trip_id_forget (r : Stops.row) :
  Stops.trip_id (forget c r) = Stops.trip_id r.
Proof. destruct c; reflexivity. Qed.

Lemma forget_trips (l l' : list Stops.row) :
  map (forget c) l' = map (forget c) l ->
  map Stops.trip_id l' = map Stops.trip_id l.
Proof.
  intros H. apply (f_equal (map Stops.trip_id)) in H.
  rewrite !map_map in H.
  erewrite map_ext in H by apply trip_id_forget.
  symmetry in H.
  erewrite map_ext in H by apply trip_id_forget.
  now symmetry.
Qed.

Lemma forget_set_head (v : option Q) (g : list Stops.row) :
  map (forget c) (set_head c v g) = map (forget c) g.
Proof. destruct g; cbn; [ reflexivity | now rewrite forget_set_col ]. Qed.

Lemma pin_head_set_head (dist_threshold : Q) (r j : Stops.row)
      (rest : list Stops.row) :
  find (known c) (r :: rest) = Some j ->
  pin_head c dist_threshold (r :: rest)
  = set_head c (boundary_delay c dist_threshold r j) (r :: rest).
Proof.
  intros H. unfold pin_head, boundary_delay. fold (known c). rewrite H.
  cbn [set_head]. now destruct (Qlt_bool _ _).
Qed.

Lemma pin_head_unknown (dist_threshold : Q) (g : list Stops.row) :
  find (known c) g = None -> pin_head c dist_threshold g = g.
Proof.
  intros H. unfold pin_head. fold (known c). rewrite H. now destruct g.
Qed.

Lemma forget_pin_head (dist_threshold : Q) (g : list Stops.row) :
  map (forget c) (pin_head c dist_threshold g) = map (forget c) g.
Proof.
  destruct g as [ | r rest ]; [ reflexivity | ].
  destruct (find (known c) (r :: rest)) as [ j | ] eqn:E.
  - rewrite (pin_head_set_head _ _ _ _ E). apply forget_set_head.
  - now rewrite pin_head_unknown.
Qed.

Lemma forget_pin (i : boundary) (dist_threshold : Q) (g : list Stops.row) :
  map (forget c) (pin i c dist_threshold g) = map (forget c) g.
Proof.
  destruct i; cbn [pin].
  - apply forget_pin_head.
  - now rewrite map_rev, forget_pin_head, <- map_rev, rev_involutive.
Qed.

Lemma forget_map_set (h : Stops.row -> option Q) (g : list Stops.row) :
  map (forget c) (map (fun r => set_col c (h r) r) g) = map (forget c) g.
Proof.
  rewrite map_map. apply map_ext. intros r. apply forget_set_col.
Qed.

Lemma forget_round_col (num_decimals : option Z) (g : list Stops.row) :
  map (forget c) (round_col c num_decimals g) = map (forget c) g.
Proof.
  destruct num_decimals as [ d | ]; [ | reflexivity ].
  apply (forget_map_set (fun r => option_map (np_round d) (get_col c r))).
Qed.

Lemma forget_fill (dist_threshold : Q) (g : list Stops.row) :
  map (forget c) (fill c dist_threshold g) = map (forget c) g.
Proof.
  unfold fill. destruct (Nat.eqb (count c g) 0); [ reflexivity | ].
  cbn [fold_left].
  destruct (anchors c _) as [ | a rest ].
  - now rewrite !forget_pin.
  - rewrite (forget_map_set
               (fun r => Some (np_interp (Stops.shape_dist_traveled r) a rest))).
    now rewrite !forget_pin.
Qed.

Lemma forget_groupby_apply (g : list Stops.row -> list Stops.row)
      (rs : list Stops.row) :
  (forall l, map (forget c) (g l) = map (forget c) l) ->
  map (forget c) (groupby_apply g rs) = map (forget c) rs.
Proof.
  intros H.
  assert (F : Forall2 (fun a b => forget c a = forget c b)
                      rs (groupby_apply g rs)).
  { apply groupby_apply_Forall2. intros l. specialize (H l).
    remember (g l) as l' eqn:E. clear E. revert l' H.
    induction l as [ | x l IH ]; intros [ | y l' ] H;
      try discriminate; constructor.
    - cbn in H. congruence.
    - apply IH. cbn in H. congruence. }
  induction F as [ | x y l l' Hxy F IH ]; cbn; congruence.
Qed.

(** [interpolate_delays] changes nothing but the cells of its column. *)
Lemma forget_interpolate_delays (dist_threshold : Q)
      (num_decimals : option Z) (f : frame) :
  has_delay_col (interpolate_delays c dist_threshold num_decimals f)
  = has_delay_col f
  /\ map (forget c)
         (rows (interpolate_delays c dist_threshold num_decimals f))
     = map (forget c) (rows f).
Proof.
  unfold interpolate_delays.
  destruct (negb (in_columns c f)); [ now split | ].
  destruct (Nat.eqb _ _); [ now split | ].
  cbn [has_delay_col rows]. split; [ reflexivity | ].
  rewrite forget_round_col. apply forget_groupby_apply.
  intros l. apply forget_fill.
Qed.
End ColumnFacts.

Lemma forget_last_marks (rs : list Stops.row) :
  map (forget delay_col) (last_marks rs) = map (forget delay_col) rs.
Proof.
  induction rs as [ | r rest IH ]; cbn; [ reflexivity | ].
  rewrite IH. f_equal. unfold mark_last.
  destruct (existsb _ rest); [ reflexivity | apply forget_set_col ].
Qed.

Lemma forget_nullify (delay_cutoff : Q) (r : Stops.row) :
  forget delay_col (nullify delay_cutoff r) = forget delay_col r.
Proof.
  unfold nullify. destruct (fishy _ _); [ apply forget_set_col | reflexivity ].
Qed.

(** [append_delay_col] reads every column but ['delay'] ... *)
Lemma append_delay_col_ignores_delay (delay_cutoff : Q) (f f' : frame) :
  map (forget delay_col) (rows f') = map (forget delay_col) (rows f) ->
  append_delay_col delay_cutoff f' = append_delay_col delay_cutoff f.
Proof.
  intros H. unfold append_delay_col. do 3 f_equal.
  transitivity
    (map (fun r => set_col delay_col (Stops.departure_delay r) r)
         (map (forget delay_col) (rows f'))).
  - rewrite map_map. apply map_ext. intros r. now destruct r.
  - rewrite H, map_map. apply map_ext. intros r. now destruct r.
Qed.

(** ... and writes no other. *)
Lemma forget_append_delay_col (delay_cutoff : Q) (f : frame) :
  map (forget delay_col) (rows (append_delay_col delay_cutoff f))
  = map (forget delay_col) (rows f).
Proof.
  rewrite append_delay_col_rows, map_map.
  erewrite map_ext by apply forget_nullify.
  rewrite forget_last_marks.
  apply (forget_map_set delay_col Stops.departure_delay).
Qed.

(** Building the delay column and interpolating it, run on their own
    output, give that output again. *)
Lemma run_twice (delay_cutoff dist_threshold : Q)
      (num_decimals : option Z) (f : frame) :
  let clean := fun x =>
                 interpolate_delays delay_col dist_threshold num_decimals
                                    (append_delay_col delay_cutoff x) in
  clean (clean f) = clean f.
Proof.
  intros clean. subst clean. cbv beta. f_equal.
  transitivity (append_delay_col delay_cutoff
                                 (append_delay_col delay_cutoff f)).
  - apply append_delay_col_ignores_delay. apply forget_interpolate_delays.
  - apply append_delay_col_ignores_delay. apply forget_append_delay_col.
Qed.

(** C9.  A table that the delay-column builder and the interpolator
    returned with every delay resolved is left unchanged when the two
    are run on it again. *)
Theorem rerun_on_own_output_unchanged :
  forall (delay_cutoff dist_threshold : Q) (num_decimals : option Z)
         (f cleaned : frame),
    cleaned = interpolate_delays delay_col dist_threshold num_decimals
                                 (append_delay_col delay_cutoff f) ->
    fully_resolved cleaned ->
    interpolate_delays delay_col dist_threshold num_decimals
                       (append_delay_col delay_cutoff cleaned)
    = cleaned.
Proof.
  intros delay_cutoff dist_threshold num_decimals f cleaned -> _.
  f_equal.
  transitivity (append_delay_col delay_cutoff
                                 (append_delay_col delay_cutoff f)).
  - apply append_delay_col_ignores_delay. apply forget_interpolate_delays.
  - apply append_delay_col_ignores_delay. apply forget_append_delay_col.
Qed.

Lemma rerun_on_own_output_unchanged_witness :
  let stop := fun seq dist arrival departure =>
                Stops.mk "T" "S" seq dist arrival departure None in
  let f := mkFrame false [stop 1 0%Q None (Some 10%Q);
                          stop 2 1%Q None None;
                          stop 3 2%Q (Some 25%Q) (Some 30%Q)] in
  let cleaned := interpolate_delays delay_col 5 (Some 0)
                                    (append_delay_col 3600 f) in
  map Stops.delay (rows cleaned) = [Some 10%Q; Some 18%Q; Some 25%Q]
  /\ interpolate_delays delay_col 5 (Some 0) (append_delay_col 3600 cleaned)
     = cleaned.
Proof.
  intros stop f cleaned. split; [ reflexivity | ].
  apply (rerun_on_own_output_unchanged 3600%Q 5%Q (Some 0) f cleaned).
  - reflexivity.
  - split; [ reflexivity | ].
    vm_compute. repeat constructor; discriminate.
Defined.

(** ** Pinning the two ends of a trip *)

Lemma find_app {A : Type} (p : A -> bool) (l1 l2 : list A) :
  find p (l1 ++ l2)
  = match find p l1 with
    | Some x => Some x
    | None => find p l2
    end.
Proof.
  induction l1 as [ | x l1 IH ]; cbn; [ reflexivity | ].
  now destruct (p x).
Qed.

Lemma find_rev_none {A : Type} (p : A -> bool) (l : list A) :
  find p (rev l) = None -> find p l = None.
Proof.
  intros H. destruct (find p l) as [ x | ] eqn:E; [ | reflexivity ].
  apply find_some in E. destruct E as [Hin Hp].
  apply in_rev in Hin. apply (find_none _ _ H) in Hin. congruence.
Qed.

Lemma count_find (c : column) (g : list Stops.row) :
  Nat.eqb (count c g) 0 = false -> exists j, find (known c) g = Some j.
Proof.
  unfold count. fold (known c).
  induction g as [ | r g IH ]; cbn; [ discriminate | ].
  destruct (known c r); eauto.
Qed.

Lemma beyond_threshold_anywhere (dist_threshold a b : Q) :
  Qlt_bool dist_threshold (Qabs (a - a)) = true ->
  Qlt_bool dist_threshold (Qabs (b - a)) = true.
Proof.
  unfold Qlt_bool. rewrite !negb_true_iff.
  intros H. destruct (Qle_bool (Qabs (b - a)) dist_threshold) eqn:E;
    [ | reflexivity ].
  apply Qle_bool_iff in E.
  assert (Hz : (Qabs (a - a) <= dist_threshold)%Q).
  { apply Qle_trans with (Qabs (b - a)); [ | assumption ].
    assert (Ha : (Qabs (a - a) == 0)%Q)
      by (rewrite (Qplus_opp_r a); reflexivity).
    rewrite Ha. apply Qabs_nonneg. }
  apply Qle_bool_iff in Hz. congruence.
Qed.

Section PinFacts.
Variable c : column.
Variable dist_threshold : Q.

Lemma boundary_of_pinned_self (r : Stops.row) :
  let r' := set_col c (boundary_delay c dist_threshold r r) r in
  boundary_delay c dist_threshold r' r' = boundary_delay c dist_threshold r r.
Proof.
  cbv zeta. unfold boundary_delay. rewrite get_set_col.
  replace (Stops.shape_dist_traveled (set_col c _ r))
    with (Stops.shape_dist_traveled r) by now destruct c.
  now destruct (Qlt_bool _ _).
Qed.

Lemma boundary_from_pinned (last r : Stops.row) :
  let r' := set_col c (boundary_delay c dist_threshold r r) r in
  boundary_delay c dist_threshold last r'
  = boundary_delay c dist_threshold last r.
Proof.
  cbv zeta. unfold boundary_delay. rewrite get_set_col.
  replace (Stops.shape_dist_traveled (set_col c _ r))
    with (Stops.shape_dist_traveled r) by now destruct c.
  destruct (Qlt_bool dist_threshold
                     (Qabs (Stops.shape_dist_traveled last
                            - Stops.shape_dist_traveled r))) eqn:B;
    [ reflexivity | ].
  destruct (Qlt_bool dist_threshold
                     (Qabs (Stops.shape_dist_traveled r
                            - Stops.shape_dist_traveled r))) eqn:A;
    [ | reflexivity ].
  apply (beyond_threshold_anywhere
           _ _ (Stops.shape_dist_traveled last)) in A.
  congruence.
Qed.

Lemma known_boundary (end_stop j : Stops.row) :
  known c j = true ->
  known c (set_col c (boundary_delay c dist_threshold end_stop j) end_stop)
  = true.
Proof.
  unfold known, boundary_delay. rewrite get_set_col.
  now destruct (Qlt_bool _ _).
Qed.

(** The two rounds of the loop, the second reading what the first
    wrote, give the boundary rule applied to the group as it came. *)
Lemma pin_pinned (g : list Stops.row) :
  Nat.eqb (count c g) 0 = false ->
  pin last_stop c dist_threshold (pin first_stop c dist_threshold g)
  = pinned c dist_threshold g.
Proof.
  intros Hc. destruct (count_find c g Hc) as [j1 F1].
  destruct g as [ | r0 rest ]; [ discriminate | ].
  cbn [pin]. rewrite (pin_head_set_head _ _ _ _ _ F1).
  unfold pinned. rewrite F1. unfold set_last. cbn [set_head rev].
  destruct (rev rest) as [ | l before ] eqn:R.
  - assert (rest = []) as -> by (now destruct rest using rev_ind;
                                 [ | rewrite rev_app_distr in R ]).
    cbn [app find] in *.
    destruct (known c r0) eqn:K; [ | discriminate ].
    injection F1 as <-.
    rewrite (pin_head_set_head
               c dist_threshold _
               (set_col c (boundary_delay c dist_threshold r0 r0) r0)).
    + cbn [set_head rev app]. now rewrite boundary_of_pinned_self.
    + cbn [find]. now rewrite known_boundary.
  - cbn [app].
    destruct (find (known c) (l :: before)) as [ j | ] eqn:F2.
    + rewrite (pin_head_set_head c dist_threshold _ j).
      * change (l :: before ++ [r0]) with ((l :: before) ++ [r0]).
        now rewrite find_app, F2.
      * change (l :: before ++ [?x]) with ((l :: before) ++ [x]).
        now rewrite find_app, F2.
    + assert (Hrest : find (known c) rest = None)
        by (apply find_rev_none; now rewrite R).
      cbn [find] in F1. rewrite Hrest in F1.
      destruct (known c r0) eqn:K; [ | discriminate ].
      injection F1 as <-.
      change (l :: before ++ [r0]) with ((l :: before) ++ [r0]).
      rewrite find_app, F2. cbn [find]. rewrite K.
      rewrite (pin_head_set_head
                 c dist_threshold _
                 (set_col c (boundary_delay c dist_threshold r0 r0) r0)).
      * now rewrite boundary_from_pinned.
      * change (l :: before ++ [?x]) with ((l :: before) ++ [x]).
        rewrite find_app, F2. cbn [find]. now rewrite known_boundary.
Qed.

Lemma fill_pinned (g : list Stops.row) :
  Nat.eqb (count c g) 0 = false ->
  fill c dist_threshold g
  = match anchors c (pinned c dist_threshold g) with
    | [] => pinned c dist_threshold g
    | a :: rest =>
        map (fun r =>
               set_col c (Some (np_interp (Stops.shape_dist_traveled r)
                                          a rest)) r)
            (pinned c dist_threshold g)
    end.
Proof.
  intros Hc. unfold fill. rewrite Hc. cbn [fold_left].
  now rewrite pin_pinned.
Qed.
End PinFacts.

(** ** Interpolation between the known stops *)

Section InterpFacts.
Variable x : Q.





(** Before the first sample point: its value. *)
Lemma np_interp_before (a : Q * Q) (rest : list (Q * Q)) :
  (x < fst a)%Q -> np_interp x a rest = snd a.
Proof.
  intros H. unfold np_interp, Qlt_bool.
  destruct (Qle_bool (fst a) x) eqn:B; [ | reflexivity ].
  apply Qle_bool_iff in B. exfalso. exact (Qlt_not_le _ _ H B).
Qed.
End InterpFacts.


(** ** Interpolation, trip by trip *)


Lemma group_of_map (t : string) (h : Stops.row -> Stops.row)
      (rs : list Stops.row) :
  (forall r, Stops.trip_id (h r) = Stops.trip_id r) ->
  group_of t (map h rs) = map h (group_of t rs).
Proof.
  intros H. unfold group_of. induction rs as [ | r rs IH ]; cbn.
  - reflexivity.
  - rewrite H, IH. now destruct (String.eqb (Stops.trip_id r) t).
Qed.

Lemma group_of_round_col (t : string) (c : column)
      (num_decimals : option Z) (rs : list Stops.row) :
  group_of t (round_col c num_decimals rs)
  = round_col c num_decimals (group_of t rs).
Proof.
  destruct num_decimals as [ d | ]; [ | reflexivity ].
  cbn [round_col]. apply group_of_map. intros r. now destruct c.
Qed.

(** ** Known delays through the interpolation *)











Lemma interpolate_delays_group (c : column) (dist_threshold : Q)
      (num_decimals : option Z) (f : frame) (t : string) :
  in_columns c f = true ->
  count c (rows f) <> List.length (rows f) ->
  count c (group_of t (rows f)) <> 0%nat ->
  group_of t (rows (interpolate_delays c dist_threshold num_decimals f))
  = interpolated c num_decimals
                 (pinned c dist_threshold (group_of t (rows f))).
Proof.
  intros Hcol Hnull Hknown.
  apply Nat.eqb_neq in Hnull, Hknown.
  unfold interpolate_delays. rewrite Hcol, Hnull. cbn [negb rows].
  rewrite group_of_round_col, groupby_apply_group.
  - now rewrite fill_pinned.
  - intros l. apply (forget_trips c), forget_fill.
Qed.


(** The ends of a pinned trip of two stops or more. *)
Lemma pinned_ends (c : column) (dist_threshold : Q)
      (first last j_first j_last : Stops.row) (middle : list Stops.row) :
  find (known c) (first :: middle ++ [last]) = Some j_first ->
  find (known c) (rev (first :: middle ++ [last])) = Some j_last ->
  pinned c dist_threshold (first :: middle ++ [last])
  = set_col c (boundary_delay c dist_threshold first j_first) first
    :: middle
    ++ [set_col c (boundary_delay c dist_threshold last j_last) last].
Proof.
  intros H1 H2. unfold pinned. rewrite H1, H2.
  cbn [rev]. rewrite rev_app_distr. cbn [rev app].
  unfold set_last. cbn [set_head rev].
  rewrite rev_app_distr. cbn [rev app set_head].
  rewrite rev_app_distr, rev_involutive. reflexivity.
Qed.

(** X20. A trip without any known delay is returned as it came:
    nothing is pinned, interpolated or rounded in it. *)
Lemma interpolate_delays_unknown_group (c : column) (dist_threshold : Q)
      (num_decimals : option Z) (f : frame) (t : string) :
  count c (group_of t (rows f)) = 0%nat ->
  group_of t (rows (interpolate_delays c dist_threshold num_decimals f))
  = group_of t (rows f).
Proof.
  intros Hnone. unfold interpolate_delays.
  destruct (negb (in_columns c f)); [ reflexivity | ].
  destruct (Nat.eqb _ _); [ reflexivity | ].
  cbn [rows]. rewrite group_of_round_col, groupby_apply_group
    by (intros l; apply (forget_trips c), forget_fill).
  unfold fill. rewrite Hnone. cbn [Nat.eqb].
  destruct num_decimals as [ d | ]; [ | reflexivity ].
  cbn [round_col]. rewrite <- (map_id (group_of t (rows f))) at 2.
  apply map_ext_in. intros r Hr.
  assert (Hn : get_col c r = None).
  { unfold count in Hnone.
    destruct (notnull (get_col c r)) eqn:K.
    - assert (Hin : In r (filter (fun r => notnull (get_col c r))
                                 (group_of t (rows f))))
        by now apply filter_In.
      destruct (filter _ (group_of t (rows f))); [ destruct Hin | discriminate ].
    - now destruct (get_col c r). }
  rewrite Hn. cbn. destruct c, r; cbn in *; now subst.
Qed.

(** A table without any null delay is returned as it came. *)
Lemma interpolate_delays_resolved (c : column) (dist_threshold : Q)
      (num_decimals : option Z) (f : frame) :
  count c (rows f) = List.length (rows f) ->
  interpolate_delays c dist_threshold num_decimals f = f.
Proof.
  intros H. unfold interpolate_delays.
  destruct (negb (in_columns c f)); [ reflexivity | ].
  now rewrite H, Nat.eqb_refl.
Qed.




(** ** Clock strings *)

Lemma digit_not (c x : ascii) :
  is_digit c = true -> is_digit x = false -> Ascii.eqb c x = false.
Proof.
  intros Hc Hx. destruct (Ascii.eqb_spec c x); [ congruence | reflexivity ].
Qed.

Lemma uint_digits (d : Decimal.uint) :
  all_digits (NilEmpty.string_of_uint d) = true.
Proof. induction d; cbn; auto. Qed.

Lemma str_of_Z_shape (n : Z) :
  0 <= n ->
  exists d, d <> Decimal.Nil /\ Z.to_int n = Decimal.Pos d
            /\ str_of_Z n = NilEmpty.string_of_uint d.
Proof.
  intros Hn. destruct n as [ | p | p ]; [ | | lia ].
  - exists (Decimal.D0 Decimal.Nil). repeat split. discriminate.
  - exists (Pos.to_uint p). pose proof (DecimalPos.Unsigned.to_uint_nonnil p) as Hp.
    repeat split; [ assumption | ].
    unfold str_of_Z. cbn. now destruct (Pos.to_uint p).
Qed.

Lemma str_of_Z_digits (n : Z) : 0 <= n -> all_digits (str_of_Z n) = true.
Proof.
  intros Hn. destruct (str_of_Z_shape n Hn) as (d & _ & _ & ->).
  apply uint_digits.
Qed.

Lemma int_of_str_digits (d : Decimal.uint) :
  d <> Decimal.Nil ->
  int_of_str (NilEmpty.string_of_uint d) = Ok (Z.of_uint d)
  /\ int_of_str (String "0" (NilEmpty.string_of_uint d)) = Ok (Z.of_uint d).
Proof.
  intros Hd. pose proof (uint_digits d) as Hdig.
  pose proof (NilEmpty.usu d) as Hu. unfold int_of_str.
  destruct (NilEmpty.string_of_uint d) as [ | c s ] eqn:E.
  - now destruct d.
  - cbn [all_digits] in Hdig. apply andb_prop in Hdig.
    destruct Hdig as [Hc _]. split.
    + rewrite (digit_not c "+" Hc eq_refl).
      unfold NilZero.int_of_string. rewrite (digit_not c "-" Hc eq_refl).
      unfold NilZero.uint_of_string. now rewrite Hu.
    + cbn [Ascii.eqb Bool.eqb]. unfold NilZero.int_of_string.
      cbn [Ascii.eqb Bool.eqb]. unfold NilZero.uint_of_string.
      change (NilEmpty.uint_of_string (String "0" (String c s)))
        with (uint_of_char "0" (NilEmpty.uint_of_string (String c s))).
      rewrite Hu. reflexivity.
Qed.

Lemma int_of_str_pad2 (n : Z) : 0 <= n -> int_of_str (pad2 n) = Ok n.
Proof.
  intros Hn. destruct (str_of_Z_shape n Hn) as (d & Hd & Hi & Hs).
  assert (Hz : Z.of_uint d = n).
  { rewrite <- (DecimalZ.of_to n), Hi. reflexivity. }
  unfold pad2. rewrite Hs.
  destruct (Nat.ltb _ 2); rewrite <- Hz; now apply int_of_str_digits.
Qed.

Lemma pad2_digits (n : Z) : 0 <= n -> all_digits (pad2 n) = true.
Proof.
  intros Hn. unfold pad2. pose proof (str_of_Z_digits n Hn) as H.
  destruct (Nat.ltb _ 2); [ cbn; now rewrite H | assumption ].
Qed.

Lemma split_on_field (a rest : string) :
  all_digits a = true ->
  split_on ":" (a ++ String ":" rest) = a :: split_on ":" rest.
Proof.
  induction a as [ | c a IH ]; cbn; intros H.
  - reflexivity.
  - apply andb_prop in H. destruct H as [Hc Ha].
    now rewrite (digit_not c ":" Hc eq_refl), (IH Ha).
Qed.

Lemma split_on_last (a : string) :
  all_digits a = true -> split_on ":" a = [a].
Proof.
  induction a as [ | c a IH ]; cbn; intros H.
  - reflexivity.
  - apply andb_prop in H. destruct H as [Hc Ha].
    now rewrite (digit_not c ":" Hc eq_refl), (IH Ha).
Qed.

Lemma remove_colons_field (a rest : string) :
  all_digits a = true ->
  remove_colons (a ++ rest) = (a ++ remove_colons rest)%string.
Proof.
  induction a as [ | c a IH ]; cbn; intros H.
  - reflexivity.
  - apply andb_prop in H. destruct H as [Hc Ha].
    now rewrite (digit_not c ":" Hc eq_refl), (IH Ha).
Qed.

Lemma remove_colons_digits (a : string) :
  all_digits a = true -> remove_colons a = a.
Proof.
  induction a as [ | c a IH ]; cbn; intros H.
  - reflexivity.
  - apply andb_prop in H. destruct H as [Hc Ha].
    now rewrite (digit_not c ":" Hc eq_refl), (IH Ha).
Qed.

Lemma hms_fields (h m s : Z) :
  hms h m s = (pad2 h ++ String ":" (pad2 m ++ String ":" (pad2 s)))%string.
Proof. reflexivity. Qed.

Lemma parse_hms_hms (h m s : Z) :
  0 <= h -> 0 <= m -> 0 <= s -> parse_hms (hms h m s) = Some (h, m, s).
Proof.
  intros Hh Hm Hs. unfold parse_hms. rewrite hms_fields.
  rewrite split_on_field, split_on_field, split_on_last
    by now apply pad2_digits.
  now rewrite !int_of_str_pad2.
Qed.

Lemma remove_colons_hms (h m s : Z) :
  0 <= h -> 0 <= m -> 0 <= s ->
  remove_colons (hms h m s) = (pad2 h ++ pad2 m ++ pad2 s)%string.
Proof.
  intros Hh Hm Hs. rewrite hms_fields.
  rewrite remove_colons_field by now apply pad2_digits.
  cbn [remove_colons Ascii.eqb Bool.eqb]. f_equal.
  rewrite remove_colons_field by now apply pad2_digits.
  cbn [remove_colons Ascii.eqb Bool.eqb]. f_equal.
  now apply remove_colons_digits, pad2_digits.
Qed.

Lemma window_end_value (date : string) (max_departure : option string)
      (sec : Z) :
  timestr_to_seconds max_departure = Some sec ->
  0 <= sec + 20 * 60 ->
  let total := sec + 20 * 60 in
  let time_of_day :=
    (pad2 ((total / 3600) mod 24) ++ pad2 ((total mod 3600) / 60)
     ++ pad2 ((total mod 3600) mod 60))%string in
  window_end date max_departure
  = if Z.leb (24 * 3600) total
    then do d <- int_of_str date; Ok (str_of_Z (d + 1), time_of_day)
    else Ok (date, time_of_day).
Proof.
  intros Hsec Hpos total tod. unfold window_end. rewrite Hsec.
  fold total. cbn [seconds_to_timestr timestr_mod24].
  assert (H1 : 0 <= total / 3600) by (apply Z.div_pos; lia).
  assert (H2 : 0 <= (total mod 3600) / 60)
    by (apply Z.div_pos; [ apply Z.mod_pos_bound | ]; lia).
  assert (H3 : 0 <= (total mod 3600) mod 60)
    by (apply Z.mod_pos_bound; lia).
  rewrite parse_hms_hms by assumption.
  rewrite remove_colons_hms
    by (try assumption; apply Z.mod_pos_bound; lia).
  fold tod. destruct (Z.leb (24 * 3600) total); [ | reflexivity ].
  now destruct (int_of_str date).
Qed.

(** ** The admission window *)

(** Before midnight the window ends on the service date. *)
Lemma window_end_same_day (date : string) (max_departure : option string)
      (sec : Z) :
  timestr_to_seconds max_departure = Some sec ->
  0 <= sec + 20 * 60 < 24 * 3600 ->
  exists time_of_day,
    window_end date max_departure = Ok (date, time_of_day).
Proof.
  intros Hsec Hrange.
  rewrite (window_end_value date max_departure sec Hsec) by lia.
  replace (Z.leb (24 * 3600) (sec + 20 * 60)) with false
    by (symmetry; apply Z.leb_gt; lia).
  eauto.
Qed.

(** Past midnight the end date is the number of the service date plus
    one; that is the following calendar date unless the service date
    is the last day of its month. *)
Lemma window_end_next_day (date : string) (max_departure : option string)
      (sec d : Z) :
  timestr_to_seconds max_departure = Some sec ->
  24 * 3600 <= sec + 20 * 60 ->
  int_of_str date = Ok d ->
  exists time_of_day,
    window_end date max_departure = Ok (str_of_Z (d + 1), time_of_day)
    /\ (d mod 100 < days_in_month (d / 10000) ((d / 100) mod 100) ->
        following_date date = Ok (str_of_Z (d + 1))).
Proof.
  intros Hsec Hle Hd.
  rewrite (window_end_value date max_departure sec Hsec) by lia.
  replace (Z.leb (24 * 3600) (sec + 20 * 60)) with true
    by (symmetry; apply Z.leb_le; lia).
  rewrite Hd. cbn [bind]. eexists. split; [ reflexivity | ].
  intros Hday. unfold following_date, following_day. rewrite Hd. cbn [bind].
  now rewrite (proj2 (Z.ltb_lt _ _) Hday).
Qed.

(** C6 at work on the last day of a month and of a year: the padded
    end time passes midnight, and the end date is the service date's
    number plus one, not the following calendar date; a snapshot taken
    a quarter past midnight of the following day falls outside the
    window that was meant to hold it. *)
Theorem window_end_month_boundary :
  window_end "20160131" (Some "24:10:00") = Ok ("20160132", "003000")
  /\ following_date "20160131" = Ok "20160201"
  /\ window_end "20161231" (Some "23:45:00") = Ok ("20161232", "000500")
  /\ following_date "20161231" = Ok "20170101"
  /\ String.leb "20160201001500" ("20160132" ++ "003000") = false
  /\ String.leb "20160201001500" ("20160201" ++ "003000") = true.
Proof. repeat split; reflexivity. Qed.

(** Inside a month the rollover is the following date, and the time of
    day is the padded end time less 24 hours. *)
Lemma window_end_mid_month :
  window_end "20160519" (Some "25:05:09") = Ok ("20160520", "012509")
  /\ following_date "20160519" = Ok "20160520"
  /\ window_end "20160519" (Some "23:39:59") = Ok ("20160519", "235959").
Proof. repeat split; reflexivity. Qed.

(** ** When the join keeps the row count *)

Section RowCount.
Context {V : Type} (V_eq_dec : forall a b : V, {a = b} + {a <> b}).

Lemma drop_duplicates_from_In (seen rs : list (DelayRow V)) (r : DelayRow V) :
  In r (drop_duplicates_from V_eq_dec seen rs) -> In r rs.
Proof.
  revert seen. induction rs as [ | x rs IH ]; intros seen; cbn.
  - auto.
  - destruct (in_dec _ x seen); cbn; intros H.
    + right. eapply IH, H.
    + destruct H as [ <- | H ]; [ now left | right; eapply IH, H ].
Qed.

Lemma merge_order_In (f : list (DelayRow V)) (r : DelayRow V) :
  In r (merge_order V_eq_dec f) -> In r f.
Proof.
  unfold merge_order, sort_values. intros H.
  apply (Permutation_in _ (sort_by_perm key_compare row_key _)) in H.
  apply filter_In in H. destruct H as [H _].
  now apply drop_duplicates_from_In in H.
Qed.


End RowCount.


(** * Further properties

    What the code shows beyond the statements above, function by
    function. *)

(** ** Further properties of the parser *)


Lemma subscript_raises (v : json) (k : string) (x : exn) :
  subscript v k = Raise x -> caught x = true.
Proof.
  destruct v as [ | b | n | s | items | members ]; cbn;
    try (intros H; injection H as <-; reflexivity).
  destruct (lookup k members); intros H; [ discriminate | ].
  injection H as <-. reflexivity.
Qed.







(** X1. [get_timestamp] returns [None] exactly on a feed that Python
    counts as false ([None], an empty dict, ...): on any other feed it
    returns a timestamp string or raises. *)
Theorem get_timestamp_none_iff_empty :
  forall (timestamp_to_str : json -> result string) (feed : json),
    get_timestamp timestamp_to_str feed = Ok None <-> truthy feed = false.
Proof.
  intros ts feed. unfold get_timestamp.
  destruct (truthy feed); cbn [negb]; split; try reflexivity;
    try discriminate.
  intros H.
  repeat (match type of H with
          | bind ?m _ = _ => destruct m; cbn [bind] in H
          end; [ | discriminate ]).
  discriminate.
Qed.

Lemma extract_delays_null_feed_witness :
  extract_delays plain_timestamp JNull = Ok ([], None)
  /\ extract_delays plain_timestamp (JObj []) = Ok ([], None).
Proof.
  split.
  - apply (extract_delays_null_feed plain_timestamp JNull). reflexivity.
  - apply (extract_delays_null_feed plain_timestamp (JObj [])). reflexivity.
Defined.



(** X4. An entity whose [stop_time_update] is a list of updates
    rather than a single dict cannot be read: subscripting the list
    with a string raises an exception the handler catches, so the
    entity gives no row and the scan ends there. *)
Theorem scan_entity_array_update :
  forall (e tu : json) (updates : list json),
    subscript e "trip_update" = Ok tu ->
    subscript tu "stop_time_update" = Ok (JArr updates) ->
    exists x, scan_entity e = Raise x /\ caught x = true.
Proof.
  intros e tu updates He Htu. unfold scan_entity.
  assert (Hc : contains "trip_update" e = Ok true).
  { destruct e; try discriminate. cbn in *.
    destruct (lookup "trip_update" members); [ reflexivity | discriminate ]. }
  rewrite Hc. cbn [bind negb]. rewrite He. cbn [bind].
  destruct (subscript tu "trip") as [ trip | x ] eqn:E1; cbn [bind];
    [ | exists x; split; [ reflexivity | eapply subscript_raises; eauto ] ].
  destruct (subscript trip "route_id") as [ rid | x ] eqn:E2; cbn [bind];
    [ | exists x; split; [ reflexivity | eapply subscript_raises; eauto ] ].
  destruct (subscript trip "trip_id") as [ tid | x ] eqn:E3; cbn [bind];
    [ | exists x; split; [ reflexivity | eapply subscript_raises; eauto ] ].
  rewrite Htu. cbn. exists TypeError. split; reflexivity.
Qed.

Lemma scan_entity_array_update_witness :
  let tu := JObj [("trip", JObj [("route_id", JStr "R");
                                 ("trip_id", JStr "T")]);
                  ("stop_time_update",
                   JArr [JObj [("stop_sequence", JNum 1);
                               ("stop_id", JStr "S");
                               ("arrival", JObj [("delay", JNum 5)])]])] in
  let e := JObj [("trip_update", tu)] in
  exists x, scan_entity e = Raise x /\ caught x = true.
Proof.
  intros tu e.
  apply (scan_entity_array_update
           e tu [JObj [("stop_sequence", JNum 1); ("stop_id", JStr "S");
                       ("arrival", JObj [("delay", JNum 5)])]]);
    reflexivity.
Defined.



(** ** Further properties of the merge *)

Section MergeMore.
Context {V : Type} (V_eq_dec : forall a b : V, {a = b} + {a <> b}).

Lemma drop_duplicates_from_keeps (seen rs : list (DelayRow V))
      (r : DelayRow V) :
  In r rs -> In r seen \/ In r (drop_duplicates_from V_eq_dec seen rs).
Proof.
  revert seen. induction rs as [ | x rs IH ]; intros seen; cbn.
  - intros [].
  - intros [ <- | H ].
    + destruct (in_dec (DelayRow_eq_dec V_eq_dec) x seen);
        [ now left | right; now left ].
    + destruct (in_dec (DelayRow_eq_dec V_eq_dec) x seen)
        as [ Hx | Hx ].
      * apply IH, H.
      * destruct (IH (x :: seen) H) as [ [ <- | Hs ] | Hd ].
        -- right. now left.
        -- now left.
        -- right. now right.
Qed.

Lemma merge_order_keeps (f : list (DelayRow V)) (r : DelayRow V) :
  In r f ->
  notnull (arrival_delay r) || notnull (departure_delay r) = true ->
  In r (merge_order V_eq_dec f).
Proof.
  intros Hin Hd. unfold merge_order, sort_values.
  apply (Permutation_in _ (Permutation_sym
                             (sort_by_perm key_compare row_key _))).
  apply filter_In. split; [ | exact Hd ].
  destruct (drop_duplicates_from_keeps [] f r Hin) as [ [] | H ]. exact H.
Qed.

Lemma merge_order_delay (f : list (DelayRow V)) (r : DelayRow V) :
  In r (merge_order V_eq_dec f) ->
  notnull (arrival_delay r) || notnull (departure_delay r) = true.
Proof.
  unfold merge_order, sort_values. intros H.
  apply (Permutation_in _ (sort_by_perm key_compare row_key _)) in H.
  apply filter_In in H. apply H.
Qed.

(** No key is lost in the walk, whatever the order of the rows. *)
Lemma merge_runs_covers (rs : list (DelayRow V)) (kept : DelayRow V) (k : key) :
  In k (map row_key (kept :: rs)) ->
  In k (map row_key (merge_runs kept rs)).
Proof.
  revert kept. induction rs as [ | x rest IH ]; intros kept; cbn.
  - auto.
  - destruct (key_eqb (row_key x) (row_key kept)) eqn:E.
    + apply (eqb_of_true _ key_order) in E.
      intros [ H | [ H | H ] ]; apply IH; cbn.
      * left. now rewrite backfill_key.
      * left. rewrite backfill_key. congruence.
      * now right.
    + intros [ H | H ]; cbn; [ now left | right; now apply IH ].
Qed.

Lemma walk_covers (rs : list (DelayRow V)) (r : DelayRow V) :
  In r rs -> In (row_key r) (map row_key (walk None [] rs)).
Proof.
  intros H. rewrite walk_from_start. destruct rs as [ | x rest ].
  - destruct H.
  - apply merge_runs_covers. now apply in_map.
Qed.

Lemma first_present_In (cells : list (option V)) (v : V) :
  first_present cells = Some v -> In (Some v) cells.
Proof.
  induction cells as [ | [ u | ] cells IH ]; cbn.
  - discriminate.
  - intros H. left. exact H.
  - intros H. right. now apply IH.
Qed.

(** The walk leaves a frame with pairwise different adjacent keys as
    it is. *)
Lemma merge_runs_distinct (rs : list (DelayRow V)) (kept : DelayRow V) :
  StronglySorted (fun a b => key_compare a b = Lt)
                 (map row_key (kept :: rs)) ->
  merge_runs kept rs = kept :: rs.
Proof.
  revert kept. induction rs as [ | x rest IH ]; intros kept Hs; cbn.
  - reflexivity.
  - cbn in Hs. inversion Hs as [ | k ks Hs' Hk ]; subst.
    inversion Hk as [ | k' ks' Hlt _ ]; subst.
    replace (key_eqb (row_key x) (row_key kept)) with false.
    + f_equal. now apply IH.
    + unfold key_eqb, eqb_of.
      rewrite (cmp_antisym _ key_order), Hlt. reflexivity.
Qed.

Lemma drop_duplicates_from_NoDup (seen rs : list (DelayRow V)) :
  NoDup rs -> (forall r, In r rs -> ~ In r seen) ->
  drop_duplicates_from V_eq_dec seen rs = rs.
Proof.
  revert seen. induction rs as [ | x rs IH ]; intros seen Hnd Hs; cbn.
  - reflexivity.
  - inversion Hnd as [ | y ys Hx Hnd' ]; subst.
    destruct (in_dec (DelayRow_eq_dec V_eq_dec) x seen) as [ Hin | _ ].
    + destruct (Hs x (or_introl eq_refl) Hin).
    + f_equal. apply IH; [ assumption | ].
      intros r Hr [ <- | Hin ]; [ contradiction | ].
      exact (Hs r (or_intror Hr) Hin).
Qed.

Lemma dropna_all_has_delay (rs : list (DelayRow V)) :
  Forall has_delay rs -> dropna_all rs = rs.
Proof.
  induction 1 as [ | r rs Hr _ IH ]; cbn.
  - reflexivity.
  - unfold dropna_all in IH. rewrite IH.
    replace (notnull (arrival_delay r) || notnull (departure_delay r))
      with true; [ reflexivity | ].
    destruct Hr as [ Hr | Hr ];
      destruct (arrival_delay r), (departure_delay r); cbn; congruence.
Qed.

Lemma sort_values_sorted (rs : list (DelayRow V)) :
  StronglySorted (fun a b => key_compare a b = Lt) (map row_key rs) ->
  sort_values rs = rs.
Proof.
  unfold sort_values.
  induction rs as [ | x rs IH ]; cbn; intros Hs.
  - reflexivity.
  - inversion Hs as [ | k ks Hs' Hk ]; subst. rewrite (IH Hs').
    destruct rs as [ | y rs' ]; cbn; [ reflexivity | ].
    inversion Hk as [ | k' ks' Hlt _ ]; subst.
    unfold key_leb, leb_of. now rewrite Hlt.
Qed.

Lemma combine_delays_ascending (delays_list : list (list (DelayRow V)))
      (out : list (DelayRow V)) :
  combine_delays V_eq_dec delays_list = Ok out ->
  StronglySorted (fun a b => key_compare a b = Lt) (map row_key out).
Proof.
  intros H. apply combine_delays_inv in H. destruct H as [_ ->].
  rewrite walk_from_start.
  pose proof (merge_order_sorted V_eq_dec (List.concat delays_list)) as Hs.
  destruct (merge_order V_eq_dec (List.concat delays_list)) as [ | r rest ].
  - constructor.
  - now apply merge_runs_keys.
Qed.

Lemma combine_delays_all_delayed (delays_list : list (list (DelayRow V)))
      (out : list (DelayRow V)) :
  combine_delays V_eq_dec delays_list = Ok out -> Forall has_delay out.
Proof.
  intros H. apply combine_delays_inv in H. destruct H as [_ ->].
  rewrite walk_from_start.
  pose proof (merge_order_has_delay V_eq_dec (List.concat delays_list))
    as Hd.
  destruct (merge_order V_eq_dec (List.concat delays_list)) as [ | r rest ].
  - constructor.
  - inversion Hd; subst. now apply merge_runs_has_delay.
Qed.

(** What went into a merged record: the records of its key, in sort
    order. *)
Lemma combine_delays_origin (delays_list : list (list (DelayRow V)))
      (out : list (DelayRow V)) (o : DelayRow V) :
  combine_delays V_eq_dec delays_list = Ok out ->
  In o out ->
  exists first later,
    (forall r, In r (first :: later) ->
               In r (List.concat delays_list) /\ row_key r = row_key o
               /\ notnull (arrival_delay r) || notnull (departure_delay r)
                  = true)
    /\ o = fold_left backfill later first.
Proof.
  intros H Hin. apply combine_delays_inv in H. destruct H as [_ ->].
  apply walk_sorted_In in Hin; [ | apply merge_order_sorted ].
  destruct Hin as (first & later & Hrecs & Ho).
  exists first, later. split; [ | exact Ho ].
  intros r Hr. rewrite <- Hrecs in Hr.
  pose proof (same_key_records_key _ _ _ Hr) as Hk.
  unfold same_key_records in Hr. apply filter_In in Hr. destruct Hr as [Hr _].
  split; [ now apply (merge_order_In V_eq_dec) | ].
  split; [ exact Hk | now apply merge_order_delay in Hr ].
Qed.
End MergeMore.

(** X6. The frame [combine_delays] returns is in strictly ascending
    order of (route_id, trip_id, stop_sequence): route_id first, then
    trip_id, then stop_sequence, strings compared character by
    character. *)
Theorem combine_delays_sorted_by_key :
  forall (V : Type) (V_eq_dec : forall a b : V, {a = b} + {a <> b})
         (delays_list : list (list (DelayRow V))) (out : list (DelayRow V)),
    combine_delays V_eq_dec delays_list = Ok out ->
    StronglySorted (fun a b => key_compare (row_key a) (row_key b) = Lt) out.
Proof.
  intros V V_eq_dec delays_list out H.
  apply (combine_delays_ascending V_eq_dec) in H.
  induction out as [ | o out IH ]; [ constructor | ].
  cbn in H. inversion H as [ | k ks Hs Hk ]; subst.
  constructor; [ now apply IH | ].
  now rewrite Forall_map in Hk.
Qed.

Lemma combine_delays_sorted_by_key_witness :
  let a := mkDelayRow "R" "T" 2 "S2" (Some 5) None in
  let b := mkDelayRow "R" "T" 1 "S1" None (Some 7) in
  let c := mkDelayRow "Q" "U" 9 "S9" (Some 9) None in
  combine_delays Z.eq_dec [[a; b]; [c]] = Ok [c; b; a]
  /\ StronglySorted (fun x y => key_compare (row_key x) (row_key y) = Lt)
                    [c; b; a].
Proof.
  intros a b c. split; [ reflexivity | ].
  apply (combine_delays_sorted_by_key Z Z.eq_dec [[a; b]; [c]] [c; b; a]).
  reflexivity.
Defined.

(** X7. The keys of the merged frame are exactly the keys of the
    incoming records that carry an arrival or a departure delay: no
    such key is lost, and a key seen only on records with both delays
    null is absent. *)
Theorem combine_delays_key_coverage :
  forall (V : Type) (V_eq_dec : forall a b : V, {a = b} + {a <> b})
         (delays_list : list (list (DelayRow V))) (out : list (DelayRow V))
         (k : key),
    combine_delays V_eq_dec delays_list = Ok out ->
    (In k (map row_key out)
     <-> exists r, In r (List.concat delays_list) /\ row_key r = k
                   /\ notnull (arrival_delay r)
                      || notnull (departure_delay r) = true).
Proof.
  intros V V_eq_dec delays_list out k H. split.
  - intros Hin. apply in_map_iff in Hin. destruct Hin as (o & <- & Hin).
    destruct (combine_delays_origin V_eq_dec _ _ _ H Hin)
      as (first & later & Hall & _).
    exists first. apply Hall. now left.
  - intros (r & Hin & <- & Hd).
    apply combine_delays_inv in H. destruct H as [_ ->].
    apply walk_covers. now apply merge_order_keeps.
Qed.

Lemma combine_delays_key_coverage_witness :
  let a := mkDelayRow "R" "T" 1 "S1" (Some 5) None in
  let b := mkDelayRow "R" "T" 2 "S2" None None in
  In ("R", "T", 1) (map row_key [a])
  <-> exists r, In r (List.concat [[b; a]]) /\ row_key r = ("R", "T", 1)
                /\ notnull (arrival_delay r)
                   || notnull (departure_delay r) = true.
Proof.
  intros a b.
  apply (combine_delays_key_coverage Z Z.eq_dec [[b; a]] [a] ("R", "T", 1)).
  reflexivity.
Defined.

(** X8. The merge invents no delay and moves none: an arrival delay of
    a merged record is the arrival delay of an incoming record with the
    same key, and likewise for a departure delay. *)
Theorem combine_delays_delay_origin :
  forall (V : Type) (V_eq_dec : forall a b : V, {a = b} + {a <> b})
         (delays_list : list (list (DelayRow V))) (out : list (DelayRow V))
         (o : DelayRow V) (v : V),
    combine_delays V_eq_dec delays_list = Ok out ->
    In o out ->
    (arrival_delay o = Some v ->
     exists r, In r (List.concat delays_list) /\ row_key r = row_key o
               /\ arrival_delay r = Some v)
    /\ (departure_delay o = Some v ->
        exists r, In r (List.concat delays_list) /\ row_key r = row_key o
                  /\ departure_delay r = Some v).
Proof.
  intros V V_eq_dec delays_list out o v H Hin.
  destruct (combine_delays_origin V_eq_dec _ _ _ H Hin)
    as (first & later & Hall & Ho).
  destruct (absorbed later first) as (_ & _ & Ha & Hd).
  rewrite <- Ho in Ha, Hd.
  split; intros Hv.
  - rewrite Hv in Ha. symmetry in Ha. apply first_present_In in Ha.
    change (In (Some v) (map arrival_delay (first :: later))) in Ha.
    apply in_map_iff in Ha. destruct Ha as (r & Hr & Hin').
    exists r. destruct (Hall r Hin') as (H1 & H2 & _). auto.
  - rewrite Hv in Hd. symmetry in Hd. apply first_present_In in Hd.
    change (In (Some v) (map departure_delay (first :: later))) in Hd.
    apply in_map_iff in Hd. destruct Hd as (r & Hr & Hin').
    exists r. destruct (Hall r Hin') as (H1 & H2 & _). auto.
Qed.

Lemma combine_delays_delay_origin_witness :
  let a := mkDelayRow "R" "T" 1 "S" (Some 5) None in
  let b := mkDelayRow "R" "T" 1 "S" None (Some 7) in
  let o := mkDelayRow "R" "T" 1 "S" (Some 5) (Some 7) in
  (arrival_delay o = Some 7 ->
   exists r, In r (List.concat [[a]; [b]]) /\ row_key r = row_key o
             /\ arrival_delay r = Some 7)
  /\ (departure_delay o = Some 7 ->
      exists r, In r (List.concat [[a]; [b]]) /\ row_key r = row_key o
                /\ departure_delay r = Some 7).
Proof.
  intros a b o.
  apply (combine_delays_delay_origin Z Z.eq_dec [[a]; [b]] [o] o 7).
  - reflexivity.
  - now left.
Defined.

(** X9. Merging is idempotent: a frame with rows that
    [combine_delays] returned, given back to it on its own, comes out
    unchanged.  (A result without rows is a frame without columns,
    which is no delay frame.) *)
Theorem combine_delays_idempotent :
  forall (V : Type) (V_eq_dec : forall a b : V, {a = b} + {a <> b})
         (delays_list : list (list (DelayRow V))) (out : list (DelayRow V)),
    combine_delays V_eq_dec delays_list = Ok out ->
    out <> [] ->
    combine_delays V_eq_dec [out] = Ok out.
Proof.
  intros V V_eq_dec delays_list out H _.
  pose proof (combine_delays_ascending V_eq_dec _ _ H) as Hs.
  pose proof (combine_delays_all_delayed V_eq_dec _ _ H) as Hd.
  unfold combine_delays, pd_concat. cbn [bind List.concat].
  rewrite app_nil_r. f_equal. unfold merge_order, drop_duplicates.
  rewrite drop_duplicates_from_NoDup.
  - rewrite (dropna_all_has_delay out Hd), (sort_values_sorted out Hs).
    rewrite walk_from_start. destruct out as [ | r rest ]; [ reflexivity | ].
    now apply merge_runs_distinct.
  - apply (NoDup_map_inv row_key). now apply strictly_sorted_NoDup.
  - intros r _ [].
Qed.

Lemma combine_delays_idempotent_witness :
  let a := mkDelayRow "R" "T" 1 "S" (Some 5) None in
  let b := mkDelayRow "R" "T" 1 "S" None (Some 7) in
  let c := mkDelayRow "R" "T" 2 "S2" (Some 9) None in
  let out := [mkDelayRow "R" "T" 1 "S" (Some 5) (Some 7); c] in
  combine_delays Z.eq_dec [out] = Ok out.
Proof.
  intros a b c out.
  apply (combine_delays_idempotent Z Z.eq_dec [[c; a]; [b; a]] out).
  - reflexivity.
  - discriminate.
Defined.

(** ** Further properties of the schedule join *)

Section JoinMore.
Context {V : Type}.

Lemma merge_left_In (st : list Schedule.StopTime) (delays : list (DelayRow V))
      (a : Augmented.StopTime V) :
  In a (merge_left st delays) ->
  In (Augmented.scheduled a) st
  /\ ((filter (join_match (Augmented.scheduled a)) delays = []
       /\ Augmented.arrival_delay a = None
       /\ Augmented.departure_delay a = None)
      \/ exists d, In d delays
                   /\ join_match (Augmented.scheduled a) d = true
                   /\ Augmented.arrival_delay a = arrival_delay d
                   /\ Augmented.departure_delay a = departure_delay d).
Proof.
  unfold merge_left. intros H. apply in_flat_map in H.
  destruct H as (s & Hs & H).
  destruct (filter (join_match s) delays) as [ | d ds ] eqn:E.
  - destruct H as [ <- | [] ]. cbn. split; [ assumption | left ]. auto.
  - apply in_map_iff in H. destruct H as (d' & <- & Hd). cbn.
    split; [ assumption | right ]. exists d'.
    rewrite <- E in Hd. apply filter_In in Hd. tauto.
Qed.

Lemma merge_left_covers (st : list Schedule.StopTime)
      (delays : list (DelayRow V)) (s : Schedule.StopTime) :
  In s st -> In s (map Augmented.scheduled (merge_left st delays)).
Proof.
  intros Hs. apply in_map_iff. unfold merge_left.
  destruct (filter (join_match s) delays) as [ | d ds ] eqn:E.
  - exists (Augmented.mk s None None). split; [ reflexivity | ].
    apply in_flat_map. exists s. split; [ assumption | ].
    rewrite E. now left.
  - exists (Augmented.mk s (arrival_delay d) (departure_delay d)).
    split; [ reflexivity | ].
    apply in_flat_map. exists s. split; [ assumption | ].
    rewrite E. now left.
Qed.

Lemma merge_left_at_least (st : list Schedule.StopTime)
      (delays : list (DelayRow V)) :
  (List.length st <= List.length (merge_left st delays))%nat.
Proof.
  unfold merge_left. induction st as [ | s st IH ]; cbn [flat_map].
  - apply Nat.le_refl.
  - rewrite length_app.
    destruct (filter (join_match s) delays);
      rewrite ?length_map; cbn [List.length]; lia.
Qed.
End JoinMore.

Lemma trip_stop_order :
  comparison_order (pair_compare String.compare Z.compare).
Proof. apply pair_order; auto using string_order, Z_order. Qed.

(** The steps a returning call went through. *)
Lemma build_augmented_stop_times_inv
      (timestamp_to_str : json -> result string)
      (stem_datetime : string -> result string)
      (gtfsr_path : option (list snapshot_file))
      (st : list Schedule.StopTime) (date : string)
      (out : list (Augmented.StopTime json)) :
  build_augmented_stop_times timestamp_to_str stem_datetime gtfsr_path
                             st date = Ok out ->
  exists files w frames delays,
    gtfsr_path = Some files
    /\ window_end date (column_max (map Schedule.departure_time st)) = Ok w
    /\ admitted_frames timestamp_to_str stem_datetime
                       (date ++ "000000") (fst w ++ snd w) files = Ok frames
    /\ combine_delays json_eq_dec frames = Ok delays
    /\ delays <> []
    /\ out = sort_by trip_stop_leb aug_key (merge_left st delays).
Proof.
  unfold build_augmented_stop_times.
  destruct gtfsr_path as [ files | ]; [ | discriminate ].
  destruct (window_end date _) as [ w | e ] eqn:Hw; [ | discriminate ].
  cbn [bind].
  destruct (admitted_frames _ _ _ _ files) as [ frames | e ] eqn:Ha;
    [ | discriminate ].
  cbn [bind].
  destruct (combine_delays json_eq_dec frames) as [ delays | e ] eqn:Hc;
    [ | discriminate ].
  cbn [bind]. destruct delays as [ | d delays ]; [ discriminate | ].
  cbn [bind]. intros H. injection H as <-.
  exists files, w, frames, (d :: delays).
  repeat (split; [ assumption || reflexivity | ]).
  split; [ discriminate | reflexivity ].
Qed.

Lemma string_length_app (a b : string) :
  String.length (a ++ b) = (String.length a + String.length b)%nat.
Proof. induction a as [ | c a IH ]; cbn; congruence. Qed.

Lemma all_digits_app (a b : string) :
  all_digits a = true -> all_digits b = true -> all_digits (a ++ b) = true.
Proof.
  induction a as [ | c a IH ]; cbn; [ auto | ].
  intros H Hb. apply andb_true_iff in H. destruct H as [Hc Ha].
  now rewrite Hc, IH.
Qed.

Lemma pad2_length (n : Z) :
  0 <= n < 100 -> String.length (pad2 n) = 2%nat.
Proof.
  intros Hn.
  assert (H : forallb (fun k => Nat.eqb (String.length (pad2 (Z.of_nat k))) 2)
                      (seq 0 100) = true) by (vm_compute; reflexivity).
  rewrite forallb_forall in H.
  specialize (H (Z.to_nat n)). rewrite Z2Nat.id in H by lia.
  apply Nat.eqb_eq, H, in_seq. lia.
Qed.


(** X11. The join drops no scheduled stop time and invents none: the
    stop times of the output are those of the schedule, each at least
    once, and the output is in ascending (trip_id, stop_sequence)
    order. *)
Theorem build_augmented_stop_times_keeps_schedule :
  forall (timestamp_to_str : json -> result string)
         (stem_datetime : string -> result string)
         (gtfsr_path : option (list snapshot_file))
         (st : list Schedule.StopTime) (date : string)
         (out : list (Augmented.StopTime json)),
    build_augmented_stop_times timestamp_to_str stem_datetime gtfsr_path
                               st date = Ok out ->
    (forall s, In s (map Augmented.scheduled out) <-> In s st)
    /\ (List.length st <= List.length out)%nat
    /\ StronglySorted
         (fun a b => trip_stop_leb (aug_key a) (aug_key b) = true) out.
Proof.
  intros ts sd gtfsr_path st date out H.
  apply build_augmented_stop_times_inv in H.
  destruct H as (files & w & frames & delays & _ & _ & _ & _ & _ & ->).
  pose proof (sort_by_perm (pair_compare String.compare Z.compare) aug_key
                           (merge_left st delays)) as P.
  fold trip_stop_leb in P.
  split; [ | split ].
  - intros s. split; intros Hs.
    + apply in_map_iff in Hs. destruct Hs as (a & <- & Ha).
      apply (Permutation_in _ P) in Ha. now apply merge_left_In in Ha.
    + apply (Permutation_in _ (Permutation_map _ (Permutation_sym P))).
      now apply merge_left_covers.
  - rewrite (Permutation_length P). apply merge_left_at_least.
  - apply (sort_by_sorted _ aug_key trip_stop_order).
Qed.

Lemma build_augmented_stop_times_keeps_schedule_witness :
  let s1 := Schedule.mk "T" "S" 1 "12:00:00" "12:00:00" None in
  let s2 := Schedule.mk "A" "S2" 2 "12:05:00" "12:05:00" None in
  let out := [Augmented.mk s2 None None;
              Augmented.mk s1 (Some (JNum 5)) None] in
  (forall s, In s (map Augmented.scheduled out) <-> In s [s1; s2])
  /\ (List.length [s1; s2] <= List.length out)%nat
  /\ StronglySorted
       (fun a b => trip_stop_leb (aug_key a) (aug_key b) = true) out.
Proof.
  intros s1 s2 out.
  apply (build_augmented_stop_times_keeps_schedule
           plain_timestamp default_stem
           (Some [mkFile "20160519115900"
                         (Some (sample_feed [sample_update "R" "T" "S" 1 5]))])
           [s1; s2] "20160519" out).
  reflexivity.
Defined.



(** X13. A snapshot file whose name falls outside the admission window
    is not opened: whatever it holds, readable or not, the frames
    gathered are those of the other files. *)
Theorem admitted_frames_skips_outside_window :
  forall (timestamp_to_str : json -> result string)
         (stem_datetime : string -> result string)
         (start_datetime end_datetime datetime : string)
         (before after : list snapshot_file) (f : snapshot_file),
    stem_datetime (stem f) = Ok datetime ->
    String.leb start_datetime datetime && String.leb datetime end_datetime
    = false ->
    admitted_frames timestamp_to_str stem_datetime start_datetime
                    end_datetime (before ++ f :: after)
    = admitted_frames timestamp_to_str stem_datetime start_datetime
                      end_datetime (before ++ after).
Proof.
  intros ts sd s e dt before after f Hdt Hout.
  induction before as [ | b before IH ]; cbn.
  - rewrite Hdt. cbn [bind]. now rewrite Hout.
  - now rewrite IH.
Qed.

Lemma admitted_frames_skips_outside_window_witness :
  let inside := mkFile "20160519115900"
                       (Some (sample_feed [sample_update "R" "T" "S" 1 5])) in
  let outside := mkFile "20160520115900" None in
  admitted_frames plain_timestamp default_stem
                  "20160519000000" "20160519122000" ([inside] ++ outside :: [])
  = admitted_frames plain_timestamp default_stem
                    "20160519000000" "20160519122000" ([inside] ++ []).
Proof.
  intros inside outside.
  apply (admitted_frames_skips_outside_window
           plain_timestamp default_stem "20160519000000" "20160519122000"
           "20160520115900" [inside] [] outside);
    reflexivity.
Defined.

(** X14. Whenever the schedule's latest departure can be read as a
    clock time, the time of day that ends the admission window is
    written with exactly six digits, hours below 24: it has the width
    of the time part of the file datetimes it is compared with. *)
Theorem window_end_six_digits :
  forall (date : string) (max_departure : option string) (sec : Z)
         (w : string * string),
    timestr_to_seconds max_departure = Some sec ->
    0 <= sec + 20 * 60 ->
    window_end date max_departure = Ok w ->
    String.length (snd w) = 6%nat /\ all_digits (snd w) = true.
Proof.
  intros date md sec w Hsec Hpos.
  rewrite (window_end_value date md sec Hsec Hpos).
  set (total := sec + 20 * 60).
  assert (Hh : 0 <= (total / 3600) mod 24 < 24)
    by (apply Z.mod_pos_bound; lia).
  assert (Hm : 0 <= (total mod 3600) / 60 < 60).
  { pose proof (Z.mod_pos_bound total 3600 ltac:(lia)).
    split; [ apply Z.div_pos; lia | apply Z.div_lt_upper_bound; lia ]. }
  assert (Hs : 0 <= (total mod 3600) mod 60 < 60)
    by (apply Z.mod_pos_bound; lia).
  assert (G : forall end_date,
             Ok (end_date,
                 (pad2 ((total / 3600) mod 24) ++ pad2 ((total mod 3600) / 60)
                  ++ pad2 ((total mod 3600) mod 60))%string) = Ok w ->
             String.length (snd w) = 6%nat /\ all_digits (snd w) = true).
  { intros end_date H. injection H as <-. cbn [snd]. split.
    - rewrite !string_length_app, !pad2_length by lia. reflexivity.
    - repeat apply all_digits_app; apply pad2_digits; lia. }
  destruct (Z.leb (24 * 3600) total); [ | apply G ].
  destruct (int_of_str date) as [ d | e ]; cbn [bind]; [ apply G | ].
  discriminate.
Qed.

Lemma window_end_six_digits_witness :
  String.length (snd ("20160520", "012509")) = 6%nat
  /\ all_digits (snd ("20160520", "012509")) = true.
Proof.
  apply (window_end_six_digits "20160519" (Some "25:05:09") 90309
                               ("20160520", "012509"));
    [ reflexivity | lia | reflexivity ].
Defined.

(** ** Further properties of the delay column *)

Lemma fishy_nullify (delay_cutoff : Q) (r : Stops.row) :
  fishy delay_cutoff (Stops.delay (nullify delay_cutoff r)) = false.
Proof.
  unfold nullify. destruct (fishy delay_cutoff (Stops.delay r)) eqn:E.
  - reflexivity.
  - exact E.
Qed.

Lemma nth_error_last_marks (before after : list Stops.row) (r : Stops.row) :
  nth_error (last_marks (before ++ r :: after)) (List.length before)
  = Some (mark_last after r).
Proof.
  induction before as [ | b before IH ]; cbn.
  - reflexivity.
  - exact IH.
Qed.

(** X15. After [append_delay_col] no delay is fishy: every cell of the
    delay column is null or smaller than the cutoff in absolute
    value. *)
Theorem append_delay_col_within_cutoff :
  forall (delay_cutoff : Q) (f : frame),
    Forall (fun r => match Stops.delay r with
                     | Some v => (Qabs v < delay_cutoff)%Q
                     | None => True
                     end)
           (rows (append_delay_col delay_cutoff f)).
Proof.
  intros delay_cutoff f. unfold append_delay_col. cbn [rows].
  apply Forall_forall. intros r Hr. apply in_map_iff in Hr.
  destruct Hr as (r' & <- & _).
  pose proof (fishy_nullify delay_cutoff r') as H.
  destruct (Stops.delay (nullify delay_cutoff r')) as [ v | ]; [ | exact I ].
  cbn in H. apply Qnot_le_lt. intros Hle.
  apply Qle_bool_iff in Hle. congruence.
Qed.

(** X16. [append_delay_col] writes the delay column and nothing else:
    the output has the rows of the input in the same order, with every
    other column as it was, and it has a delay column. *)
Theorem append_delay_col_other_columns :
  forall (delay_cutoff : Q) (f : frame),
    has_delay_col (append_delay_col delay_cutoff f) = true
    /\ map (forget delay_col) (rows (append_delay_col delay_cutoff f))
       = map (forget delay_col) (rows f).
Proof.
  intros delay_cutoff f. split.
  - reflexivity.
  - apply forget_append_delay_col.
Qed.

(** X17. [append_delay_col] is idempotent, and reads nothing from a
    delay column already there: applied to its own output it returns
    that output. *)
Theorem append_delay_col_idempotent :
  forall (delay_cutoff : Q) (f : frame),
    append_delay_col delay_cutoff (append_delay_col delay_cutoff f)
    = append_delay_col delay_cutoff f.
Proof.
  intros delay_cutoff f.
  apply append_delay_col_ignores_delay, forget_append_delay_col.
Qed.

(** X18. On any table, sorted or not, the row that receives its
    arrival delay is the last row of its trip in table order: a row
    followed by another row of the same trip gets its departure delay,
    a row followed by none gets its arrival delay; then the cutoff
    applies. *)
Theorem append_delay_col_last_row_of_trip :
  forall (delay_cutoff : Q) (f : frame) (before after : list Stops.row)
         (r : Stops.row),
    rows f = before ++ r :: after ->
    nth_error (rows (append_delay_col delay_cutoff f)) (List.length before)
    = Some (nullify delay_cutoff
              (set_col delay_col
                 (if existsb (fun r' => String.eqb (Stops.trip_id r')
                                                   (Stops.trip_id r)) after
                  then Stops.departure_delay r
                  else Stops.arrival_delay r) r)).
Proof.
  intros delay_cutoff f before after r Hf.
  rewrite append_delay_col_rows, Hf, map_app. cbn [map].
  rewrite nth_error_map.
  replace (List.length before)
    with (List.length
            (map (fun r => set_col delay_col (Stops.departure_delay r) r)
                 before)) by apply length_map.
  rewrite nth_error_last_marks. cbn [option_map]. f_equal. f_equal.
  unfold mark_last.
  rewrite existsb_map_trip by reflexivity. cbn [Stops.trip_id set_col].
  destruct (existsb _ after); reflexivity.
Qed.

Lemma append_delay_col_last_row_of_trip_witness :
  let first := Stops.mk "T" "S2" 2 0 (Some 21%Q) (Some 20%Q) None in
  let second := Stops.mk "T" "S1" 1 0 (Some 11%Q) (Some 4000%Q) None in
  nth_error (rows (append_delay_col 3600 (mkFrame false [first; second])))
            (List.length [first])
  = Some (nullify 3600
            (set_col delay_col
               (if existsb (fun r' => String.eqb (Stops.trip_id r')
                                                 (Stops.trip_id second)) []
                then Stops.departure_delay second
                else Stops.arrival_delay second) second)).
Proof.
  intros first second.
  apply (append_delay_col_last_row_of_trip
           3600 (mkFrame false [first; second]) [first] [] second).
  reflexivity.
Defined.

(** ** Further properties of the interpolation *)






Section RangeFacts.
Variable c : column.
Variables lo hi : Z.





End RangeFacts.

Lemma count_all_known (c : column) (g : list Stops.row) :
  count c g = List.length g <-> Forall (fun r => known c r = true) g.
Proof.
  unfold count, known. induction g as [ | r g IH ]; cbn.
  - split; [ constructor | reflexivity ].
  - pose proof (filter_length_le (fun r => notnull (get_col c r)) g) as L.
    destruct (notnull (get_col c r)) eqn:E; cbn; split; intros H.
    + constructor; [ assumption | apply IH; lia ].
    + inversion H; subst. f_equal. now apply IH.
    + lia.
    + inversion H; subst. congruence.
Qed.

Lemma count_none_known (c : column) (g : list Stops.row) :
  count c g = 0%nat <-> Forall (fun r => known c r = false) g.
Proof.
  unfold count, known. induction g as [ | r g IH ]; cbn.
  - split; [ constructor | reflexivity ].
  - destruct (notnull (get_col c r)) eqn:E; cbn; split; intros H.
    + discriminate.
    + inversion H; subst. congruence.
    + constructor; [ assumption | now apply IH ].
    + inversion H; subst. now apply IH.
Qed.

Lemma count_round_col (c : column) (num_decimals : option Z)
      (g : list Stops.row) :
  count c (round_col c num_decimals g) = count c g.
Proof.
  destruct num_decimals as [ d | ]; cbn; [ | reflexivity ].
  unfold count. induction g as [ | r g IH ]; cbn; [ reflexivity | ].
  rewrite get_set_col.
  destruct (get_col c r); cbn; now rewrite IH.
Qed.

Lemma anchors_none (c : column) (g : list Stops.row) :
  anchors c g = [] -> count c g = 0%nat.
Proof.
  unfold anchors, count. induction g as [ | r g IH ]; cbn; [ reflexivity | ].
  destruct (get_col c r); cbn; [ discriminate | assumption ].
Qed.

Lemma length_round_col (c : column) (num_decimals : option Z)
      (g : list Stops.row) :
  List.length (round_col c num_decimals g) = List.length g.
Proof.
  destruct num_decimals; cbn; [ apply length_map | reflexivity ].
Qed.

(** X19. After [interpolate_delays] on a table that has the column,
    every trip's delays are all null or all filled: the interpolation
    leaves no trip half done. *)
Theorem interpolate_delays_all_or_nothing :
  forall (c : column) (dist_threshold : Q) (num_decimals : option Z)
         (f : frame) (t : string),
    in_columns c f = true ->
    let group :=
      group_of t (rows (interpolate_delays c dist_threshold num_decimals f))
    in
    count c group = 0%nat \/ count c group = List.length group.
Proof.
  intros c dist_threshold num_decimals f t Hcol group. unfold group.
  destruct (Nat.eq_dec (count c (rows f)) (List.length (rows f)))
    as [ Hfull | Hnull ].
  - right. rewrite interpolate_delays_resolved by assumption.
    apply count_all_known. apply count_all_known in Hfull.
    unfold group_of. apply Forall_forall. intros r Hr.
    apply filter_In in Hr. destruct Hr as [Hr _].
    rewrite Forall_forall in Hfull. now apply Hfull.
  - destruct (Nat.eq_dec (count c (group_of t (rows f))) 0) as [ Hz | Hk ].
    + left. now rewrite interpolate_delays_unknown_group.
    + rewrite interpolate_delays_group by assumption.
      unfold interpolated.
      rewrite count_round_col, length_round_col.
      destruct (anchors c _) as [ | a rest ] eqn:E.
      * left. now apply anchors_none.
      * right. rewrite count_all_known. apply Forall_map.
        apply Forall_forall. intros r _. unfold known.
        now rewrite get_set_col.
Qed.

Lemma interpolate_delays_all_or_nothing_witness :
  let stop := fun trip seq dist delay =>
                Stops.mk trip "S" seq dist None None delay in
  let f := mkFrame true [stop "T" 1 0%Q None;
                         stop "U" 1 0%Q None;
                         stop "T" 2 3%Q (Some 50%Q);
                         stop "T" 3 7%Q None] in
  let group := group_of "T" (rows (interpolate_delays delay_col 1 (Some 0) f))
  in
  count delay_col group = 0%nat
  \/ count delay_col group = List.length group.
Proof.
  intros stop f.
  apply (interpolate_delays_all_or_nothing delay_col 1 (Some 0) f "T").
  reflexivity.
Defined.

Lemma interpolate_delays_unknown_group_witness :
  let stop := fun trip seq dist delay =>
                Stops.mk trip "S" seq dist None None delay in
  let f := mkFrame true [stop "T" 1 0%Q None;
                         stop "U" 1 0%Q None;
                         stop "T" 2 3%Q (Some 50%Q);
                         stop "U" 2 4%Q None] in
  group_of "U" (rows (interpolate_delays delay_col 1 (Some 0) f))
  = group_of "U" (rows f).
Proof.
  intros stop f.
  apply (interpolate_delays_unknown_group delay_col 1 (Some 0) f "U").
  reflexivity.
Defined.

(** X21. [interpolate_delays] writes the column it is given and
    nothing else: the output has the rows of the input in the same
    order, with the same columns and every other cell as it was. *)
Theorem interpolate_delays_other_columns :
  forall (c : column) (dist_threshold : Q) (num_decimals : option Z)
         (f : frame),
    has_delay_col (interpolate_delays c dist_threshold num_decimals f)
    = has_delay_col f
    /\ List.length (rows (interpolate_delays c dist_threshold num_decimals f))
       = List.length (rows f)
    /\ map (forget c)
           (rows (interpolate_delays c dist_threshold num_decimals f))
       = map (forget c) (rows f).
Proof.
  intros c dist_threshold num_decimals f.
  destruct (forget_interpolate_delays c dist_threshold num_decimals f)
    as [H1 H2].
  split; [ exact H1 | split; [ | exact H2 ] ].
  apply (f_equal (@List.length _)) in H2. now rewrite !length_map in H2.
Qed.





(** ** Further properties of the collection loop *)

Section CollectMore.
Variable timestamp_to_str : json -> result string.
Variable get_feed : nat -> response.
Variable num_tries : Z.

(** What one run of the retry loop can do to the collector: it writes
    at most one file, and only right after a call of [get_feed]. *)
Lemma retry_writes_once (fuel : nat) (success : bool) (n : Z)
      (w : collector) (s' : bool * Z * collector) :
  retry timestamp_to_str get_feed num_tries fuel (success, n, w)
  = Some (Ok s') ->
  let w' := snd s' in
  sleeps w' = sleeps w
  /\ (attempts w <= attempts w')%nat
  /\ (List.length (written w') <= List.length (written w) + 1)%nat
  /\ (List.length (written w') - List.length (written w)
      <= attempts w' - attempts w)%nat
  /\ (success = true -> w' = w).
Proof.
  revert success n w.
  induction fuel as [ | fuel IH ]; intros success n w; cbn [retry].
  - destruct (negb success && Z.leb n num_tries) eqn:E; [ discriminate | ].
    intros H. injection H as <-. cbn. repeat split; lia.
  - destruct (negb success && Z.leb n num_tries) eqn:E.
    + apply andb_true_iff in E. destruct E as [E _].
      apply negb_true_iff in E. subst success.
      unfold attempt. destruct (get_feed (attempts w)) as [ feed | ].
      * destruct (get_timestamp timestamp_to_str feed) as [ t | e ];
          cbn [bind]; [ | discriminate ].
        intros H. apply IH in H.
        destruct H as (H1 & H2 & _ & _ & H5). specialize (H5 eq_refl).
        cbn [snd]. rewrite H5. cbn [attempts written sleeps].
        rewrite length_app. cbn [List.length].
        repeat split; try lia; discriminate.
      * intros H. apply IH in H. cbn [attempts written sleeps] in H.
        destruct H as (H1 & H2 & H3 & H4 & _).
        cbn [snd]. repeat split; try lia; discriminate.
    + intros H. injection H as <-. cbn. repeat split; lia.
Qed.

Lemma cycles_bound (fuel num_calls : nat) (w w' : collector) :
  cycles timestamp_to_str get_feed num_tries fuel num_calls w
  = Some (Ok w') ->
  sleeps w' = (sleeps w + num_calls)%nat
  /\ (List.length (written w') <= List.length (written w) + num_calls)%nat
  /\ (List.length (written w') - List.length (written w)
      <= attempts w' - attempts w)%nat
  /\ (attempts w <= attempts w')%nat.
Proof.
  revert w. induction num_calls as [ | k IH ]; intros w; cbn [cycles].
  - intros H. injection H as <-. repeat split; lia.
  - unfold cycle.
    destruct (retry timestamp_to_str get_feed num_tries fuel (false, 1, w))
      as [ [ [[s n] w1] | e ] | ] eqn:R; try discriminate.
    apply retry_writes_once in R. cbn [snd] in R.
    destruct R as (R1 & R2 & R3 & R4 & _).
    intros H. apply IH in H. cbn in H.
    destruct H as (H1 & H2 & H3 & H4). repeat split; lia.
Qed.

(** With no attempt allowed the retry loop is not entered. *)
Lemma cycles_no_tries (fuel num_calls : nat) (w : collector) :
  num_tries <= 0 ->
  cycles timestamp_to_str get_feed num_tries fuel num_calls w
  = Some (Ok (mkCollector (attempts w) (written w)
                          (sleeps w + num_calls))).
Proof.
  intros Hn. revert w.
  induction num_calls as [ | k IH ]; intros w; cbn [cycles].
  - rewrite Nat.add_0_r. now destruct w.
  - unfold cycle.
    replace (retry timestamp_to_str get_feed num_tries fuel (false, 1, w))
      with (Some (Ok (false, 1, w))).
    + rewrite IH. cbn. do 3 f_equal. lia.
    + destruct fuel; cbn [retry];
        replace (Z.leb 1 num_tries) with false
        by (symmetry; apply Z.leb_gt; lia);
        reflexivity.
Qed.

Section AllFetched.
Variable feed_of : nat -> json.
Variable name_of : nat -> option string.
Hypothesis fetched : forall k, get_feed k = Fetched (feed_of k).
Hypothesis stamped :
  forall k, get_timestamp timestamp_to_str (feed_of k) = Ok (name_of k).
Hypothesis tries : 1 <= num_tries.

Lemma cycles_all_fetched (fuel num_calls : nat) (w : collector) :
  cycles timestamp_to_str get_feed num_tries (S fuel) num_calls w
  = Some (Ok (mkCollector
                (attempts w + num_calls)
                (written w
                 ++ map (fun k => (name_of k, feed_of k))
                        (seq (attempts w) num_calls))
                (sleeps w + num_calls))).
Proof.
  revert w. induction num_calls as [ | k IH ]; intros w; cbn [cycles].
  - cbn. rewrite !Nat.add_0_r, app_nil_r. now destruct w.
  - unfold cycle. cbn [retry negb andb].
    replace (Z.leb 1 num_tries) with true
      by (symmetry; apply Z.leb_le; lia).
    unfold attempt. rewrite fetched, stamped. cbn [bind].
    replace (retry timestamp_to_str get_feed num_tries fuel
                   (true, 1 + 1,
                    mkCollector (S (attempts w))
                                (written w ++ [(name_of (attempts w),
                                                feed_of (attempts w))])
                                (sleeps w)))
      with (Some (Ok (true, 1 + 1,
                      mkCollector (S (attempts w))
                                  (written w ++ [(name_of (attempts w),
                                                  feed_of (attempts w))])
                                  (sleeps w))))
      by (destruct fuel; reflexivity).
    cbn [attempts written sleeps]. rewrite IH.
    cbn [attempts written sleeps seq map].
    rewrite <- app_assoc. cbn [app]. do 3 f_equal; lia.
Qed.
End AllFetched.
End CollectMore.

(** X24. When every call of [get_feed] returns a feed whose timestamp
    can be read, the run (at a positive frequency, with at least one
    try allowed) ends: it calls [get_feed] once per cycle,
    writes that feed under its timestamp, sleeps, and after
    [duration // frequency] cycles has made as many writes, in the
    order fetched (feeds with one timestamp go to one file). *)
Theorem collect_feeds_all_fetched :
  forall (timestamp_to_str : json -> result string)
         (get_feed : nat -> response) (num_tries : Z)
         (feed_of : nat -> json) (name_of : nat -> option string)
         (fuel : nat) (frequency duration : Z),
    (forall k, get_feed k = Fetched (feed_of k)) ->
    (forall k, get_timestamp timestamp_to_str (feed_of k) = Ok (name_of k)) ->
    1 <= num_tries ->
    0 < frequency ->
    let num_calls := Z.to_nat (duration / frequency) in
    collect_feeds timestamp_to_str get_feed num_tries (S fuel)
                  frequency duration
    = Some (Ok (mkCollector
                  num_calls
                  (map (fun k => (name_of k, feed_of k)) (seq 0 num_calls))
                  num_calls)).
Proof.
  intros ts get_feed num_tries feed_of name_of fuel frequency duration
         Hf Ht Hn Hfreq num_calls.
  unfold collect_feeds.
  replace (Z.eqb frequency 0) with false
    by (symmetry; apply Z.eqb_neq; lia).
  fold num_calls.
  now rewrite (cycles_all_fetched ts get_feed num_tries feed_of name_of).
Qed.

Lemma collect_feeds_all_fetched_witness :
  let feed := fun k : nat =>
                sample_feed [sample_update "R" "T" "S" 1 (Z.of_nat k)] in
  collect_feeds plain_timestamp (fun k => Fetched (feed k)) 3 (S 0) 30 100
  = Some (Ok (mkCollector
                (Z.to_nat (100 / 30))
                (map (fun k => (Some "1463616000", feed k))
                     (seq 0 (Z.to_nat (100 / 30))))
                (Z.to_nat (100 / 30)))).
Proof.
  intros feed.
  apply (collect_feeds_all_fetched
           plain_timestamp (fun k => Fetched (feed k)) 3 feed
           (fun _ => Some "1463616000") 0 30 100).
  - reflexivity.
  - reflexivity.
  - lia.
  - lia.
Defined.

(** X25. Whatever [get_feed] answers, a run at a positive frequency
    that ends without an exception has slept once per cycle and
    written at most one file per cycle, so at most
    [duration // frequency] files, and never more files than it made
    calls. *)
Theorem collect_feeds_at_most_one_file_per_cycle :
  forall (timestamp_to_str : json -> result string)
         (get_feed : nat -> response) (num_tries : Z)
         (fuel : nat) (frequency duration : Z) (w : collector),
    0 < frequency ->
    collect_feeds timestamp_to_str get_feed num_tries fuel
                  frequency duration = Some (Ok w) ->
    sleeps w = Z.to_nat (duration / frequency)
    /\ (List.length (written w) <= Z.to_nat (duration / frequency))%nat
    /\ (List.length (written w) <= attempts w)%nat.
Proof.
  intros ts get_feed num_tries fuel frequency duration w _.
  unfold collect_feeds. destruct (Z.eqb frequency 0); [ discriminate | ].
  intros H. apply cycles_bound in H. cbn in H.
  destruct H as (H1 & H2 & H3 & H4). repeat split; lia.
Qed.

Lemma collect_feeds_at_most_one_file_per_cycle_witness :
  let feed := sample_feed [sample_update "R" "T" "S" 1 5] in
  let w := mkCollector 3 [(Some "1463616000", feed);
                          (Some "1463616000", feed)] 2 in
  sleeps w = Z.to_nat (60 / 30)
  /\ (List.length (written w) <= Z.to_nat (60 / 30))%nat
  /\ (List.length (written w) <= attempts w)%nat.
Proof.
  intros feed w.
  apply (collect_feeds_at_most_one_file_per_cycle
           plain_timestamp
           (fun k => match k with
                     | 1%nat => RequestException
                     | _ => Fetched feed
                     end) 3 5 30 60 w).
  - lia.
  - reflexivity.
Defined.

(** X26. With [num_tries] zero or negative the retry loop is never
    entered: the run (at a positive frequency) only sleeps, once per
    cycle; it calls [get_feed] not once and writes nothing. *)
Theorem collect_feeds_no_tries :
  forall (timestamp_to_str : json -> result string)
         (get_feed : nat -> response) (num_tries : Z)
         (fuel : nat) (frequency duration : Z),
    num_tries <= 0 ->
    0 < frequency ->
    collect_feeds timestamp_to_str get_feed num_tries fuel
                  frequency duration
    = Some (Ok (mkCollector 0 [] (Z.to_nat (duration / frequency)))).
Proof.
  intros ts get_feed num_tries fuel frequency duration Hn Hf.
  unfold collect_feeds.
  replace (Z.eqb frequency 0) with false
    by (symmetry; apply Z.eqb_neq; lia).
  now rewrite cycles_no_tries.
Qed.

Lemma collect_feeds_no_tries_witness :
  collect_feeds plain_timestamp (fun _ => RequestException) 0 0 30 100
  = Some (Ok (mkCollector 0 [] (Z.to_nat (100 / 30)))).
Proof.
  apply (collect_feeds_no_tries plain_timestamp (fun _ => RequestException)
                                0 0 30 100); lia.
Defined.

(** X27. Only request exceptions are retried.  A feed that was fetched
    but whose timestamp cannot be read (say, a non-empty dict without
    ['response']) raises out of the first cycle: the run stops there,
    nothing is written and the later cycles do not take place. *)
Theorem collect_feeds_unreadable_feed_aborts :
  forall (timestamp_to_str : json -> result string)
         (get_feed : nat -> response) (num_tries : Z)
         (fuel : nat) (frequency duration : Z) (feed : json) (e : exn),
    get_feed 0%nat = Fetched feed ->
    get_timestamp timestamp_to_str feed = Raise e ->
    1 <= num_tries ->
    0 < frequency <= duration ->
    collect_feeds timestamp_to_str get_feed num_tries (S fuel)
                  frequency duration
    = Some (Raise e).
Proof.
  intros ts get_feed num_tries fuel frequency duration feed e
         Hf He Hn Hd.
  unfold collect_feeds.
  replace (Z.eqb frequency 0) with false
    by (symmetry; apply Z.eqb_neq; lia).
  assert (Hq : 1 <= duration / frequency)
    by (apply Z.div_le_lower_bound; lia).
  destruct (Z.to_nat (duration / frequency)) as [ | k ] eqn:E; [ lia | ].
  cbn [cycles]. unfold cycle. cbn [retry negb andb].
  replace (Z.leb 1 num_tries) with true
    by (symmetry; apply Z.leb_le; lia).
  unfold attempt. cbn [attempts]. rewrite Hf, He. reflexivity.
Qed.

Lemma collect_feeds_unreadable_feed_aborts_witness :
  collect_feeds plain_timestamp
                (fun _ => Fetched (JObj [("entity", JArr [])])) 3 (S 0)
                30 100
  = Some (Raise KeyError).
Proof.
  apply (collect_feeds_unreadable_feed_aborts
           plain_timestamp (fun _ => Fetched (JObj [("entity", JArr [])]))
           3 0 30 100 (JObj [("entity", JArr [])]) KeyError).
  - reflexivity.
  - reflexivity.
  - lia.
  - lia.
Defined.

(** ** [clean_augmented_stop_times] *)


Lemma clean_augmented_stop_times_inv (a out : augmented_frame)
      (dist_threshold : Q) :
  clean_augmented_stop_times a dist_threshold = Ok out ->
  has_raw_delay_cols a = true
  /\ has_raw_delay_cols out = false
  /\ dist_col out = dist_col a
  /\ stops out
     = match dist_col a with
       | dist_filled =>
           interpolate_delays delay_col dist_threshold (Some 0)
             (drop_raw_delays (append_delay_col 3600 (stops a)))
       | _ => drop_raw_delays (append_delay_col 3600 (stops a))
       end.
Proof.
  unfold clean_augmented_stop_times.
  destruct (has_raw_delay_cols a); cbn [negb]; [ | discriminate ].
  intros H. injection H as <-. cbn. auto.
Qed.


(** X28. [clean_augmented_stop_times] cannot be applied to its own
    output: the output has lost the two raw delay columns, and a
    second call raises KeyError where [append_delay_col] reads
    [departure_delay]. *)
Theorem clean_augmented_stop_times_not_rerunnable :
  forall (a out : augmented_frame) (dist_threshold dist_threshold' : Q),
    clean_augmented_stop_times a dist_threshold = Ok out ->
    clean_augmented_stop_times out dist_threshold' = Raise KeyError.
Proof.
  intros a out dist_threshold dist_threshold' H.
  apply clean_augmented_stop_times_inv in H. destruct H as (_ & H & _).
  unfold clean_augmented_stop_times. now rewrite H.
Qed.

Lemma clean_augmented_stop_times_not_rerunnable_witness :
  let stop := fun seq dist arrival departure =>
                Stops.mk "T" "S" seq dist arrival departure None in
  let a := mkAugmented true dist_filled
             (mkFrame false [stop 1 0%Q None (Some 10%Q);
                             stop 2 1%Q None None;
                             stop 3 2%Q (Some 25%Q) (Some 30%Q)]) in
  let out := mkAugmented false dist_filled
               (mkFrame true [Stops.mk "T" "S" 1 0%Q None None (Some 10%Q);
                              Stops.mk "T" "S" 2 1%Q None None (Some 18%Q);
                              Stops.mk "T" "S" 3 2%Q None None (Some 25%Q)])
  in
  clean_augmented_stop_times out 5 = Raise KeyError.
Proof.
  intros stop a out.
  apply (clean_augmented_stop_times_not_rerunnable a out 5 5).
  reflexivity.
Defined.

(** X29. Cleaning keeps the table's rows, in their order, with every
    column but the delays as it was: the output differs from the input
    only in that the two raw delay columns are gone and there is a
    delay column. *)
Theorem clean_augmented_stop_times_keeps_rows :
  forall (a out : augmented_frame) (dist_threshold : Q),
    clean_augmented_stop_times a dist_threshold = Ok out ->
    has_raw_delay_cols out = false
    /\ has_delay_col (stops out) = true
    /\ dist_col out = dist_col a
    /\ map (forget delay_col) (rows (stops out))
       = map (forget delay_col)
             (rows (drop_raw_delays (stops a))).
Proof.
  intros a out dist_threshold H.
  apply clean_augmented_stop_times_inv in H.
  destruct H as (_ & H1 & H2 & H3).
  assert (D : map (forget delay_col)
                  (rows (drop_raw_delays (append_delay_col 3600 (stops a))))
              = map (forget delay_col) (rows (drop_raw_delays (stops a)))).
  { pose proof (forget_append_delay_col 3600 (stops a)) as F.
    unfold drop_raw_delays. cbn [rows]. rewrite !map_map.
    rewrite <- (map_map (forget delay_col)
                        (fun r => set_col arrival_delay_col None
                                    (set_col departure_delay_col None r))).
    rewrite F, map_map. reflexivity. }
  destruct (forget_interpolate_delays
              delay_col dist_threshold (Some 0)
              (drop_raw_delays (append_delay_col 3600 (stops a))))
    as [F1 F2].
  split; [ exact H1 | ]. rewrite H3.
  split; [ | split; [ exact H2 | ] ].
  - destruct (dist_col a); try reflexivity. now rewrite F1.
  - destruct (dist_col a); try exact D. now rewrite F2.
Qed.

Lemma clean_augmented_stop_times_keeps_rows_witness :
  let stop := fun seq dist arrival departure =>
                Stops.mk "T" "S" seq dist arrival departure None in
  let a := mkAugmented true dist_filled
             (mkFrame false [stop 1 0%Q None (Some 10%Q);
                             stop 2 1%Q None None;
                             stop 3 2%Q (Some 25%Q) (Some 30%Q)]) in
  let out := mkAugmented false dist_filled
               (mkFrame true [Stops.mk "T" "S" 1 0%Q None None (Some 10%Q);
                              Stops.mk "T" "S" 2 1%Q None None (Some 18%Q);
                              Stops.mk "T" "S" 3 2%Q None None (Some 25%Q)])
  in
  has_raw_delay_cols out = false
  /\ has_delay_col (stops out) = true
  /\ dist_col out = dist_col a
  /\ map (forget delay_col) (rows (stops out))
     = map (forget delay_col) (rows (drop_raw_delays (stops a))).
Proof.
  intros stop a out.
  apply (clean_augmented_stop_times_keeps_rows a out 5).
  reflexivity.
Defined.


